(** * containerd: the filesystem applier (package [apply]) and the registry
      token fetcher (package [auth])

    A shallow embedding of [src/diff/apply/apply.go].  The Go code is
    written against interfaces ([content.Provider], [diff.StreamProcessor],
    [io.Reader], the mount and archive packages, an HTTP client); the
    embedding takes each of them as a field of a record of collaborators and
    translates the code that is in the file line by line.  Everything the code
    does to the outside world is appended to a trace of events, in the order
    in which the Go code does it, deferred calls included. *)

From Stdlib Require Import ZArith List String Bool Arith Lia.
From Stdlib Require Import Init.Byte.
Import ListNotations.
Local Open Scope string_scope.
Local Open Scope list_scope.

Set Implicit Arguments.
Set Warnings "-abstract-large-number".

(** ** Package [apply] *)
Module DiffApply.

(** Go's [error] values as this package sees them: the [io.EOF] sentinel, an
    opaque error made by a collaborator, and [errors.Wrap]. *)
Inductive error : Type :=
| EOF
| ErrNew (msg : string)
| Wrap (cause : error) (msg : string).

(** [err == io.EOF]: identity with the sentinel, which a wrapped EOF is not. *)
Definition is_EOF (e : error) : bool :=
  match e with
  | EOF => true
  | _ => false
  end.

(** [errors.Wrap(err, msg)]; it returns nil when [err] is nil. *)
Definition errors_Wrap (err : option error) (msg : string) : option error :=
  match err with
  | Some e => Some (Wrap e msg)
  | None => None
  end.

(** [int64] arithmetic: the result of an addition is reduced to the signed
    64-bit range, as Go does. *)
Definition wrap64 (z : Z) : Z :=
  ((z + 2 ^ 63) mod 2 ^ 64 - 2 ^ 63)%Z.

(** [ocispec.Platform] and [ocispec.Descriptor]. *)
Record Platform : Type := {
  Architecture : string;
  OS : string;
  OSVersion : string;
  OSFeatures : list string;
  Variant : string
}.

Record Descriptor : Type := {
  MediaType : string;
  Digest : string;
  Size : Z;
  URLs : list string;
  Annotations : list (string * string);
  Platform_ : option Platform
}.

(** [var emptyDesc = ocispec.Descriptor{}] *)
Definition emptyDesc : Descriptor :=
  {| MediaType := ""; Digest := ""; Size := 0; URLs := [];
     Annotations := []; Platform_ := None |}.

(** [ocispec.MediaTypeImageLayer] *)
Definition MediaTypeImageLayer : string :=
  "application/vnd.oci.image.layer.v1.tar".

(** [mount.Mount] *)
Record Mount : Type := {
  mount_Type : string;
  mount_Source : string;
  mount_Options : list string
}.

(** [types.Any], the value type of [ApplyConfig.ProcessorPayloads]. *)
Record Any : Type := {
  TypeUrl : string;
  Value : list byte
}.

(** [diff.ApplyConfig]; the map is kept as an association list. *)
Record ApplyConfig : Type := {
  ProcessorPayloads : list (string * Any)
}.

(** The zero value of [var config diff.ApplyConfig]. *)
Definition zeroConfig : ApplyConfig := {| ProcessorPayloads := [] |}.

(** [diff.ApplyOpt]: [func(ctx, desc, *ApplyConfig) error].  The option
    mutates the configuration it is handed and may fail. *)
Definition ApplyOpt : Type :=
  Descriptor -> ApplyConfig -> ApplyConfig * option error.

(** [hash.Hash] as the sequence of bytes written so far.  [Write] "never
    returns an error" and takes the whole slice. *)
Definition Hash : Type := list byte.

Definition Hash_Write (h : Hash) (p : list byte) : nat * option error * Hash :=
  (List.length p, None, (h ++ p)%list).

Section Model.

(** [St]: the states of byte streams ([io.Reader] values); [RA]: the
    handles of the content store ([content.ReaderAt]); [X]: the states of
    the archive extractor; [FS]: the states of the filesystem. *)
Context {St RA X FS : Type}.

(** [diff.StreamProcessor]: a stream and the media type it reports. *)
Record StreamProcessor : Type := {
  sp_MediaType : string;
  sp_stream : St
}.

(** What [Apply] does to the outside, in order. *)
Inductive Event : Type :=
| EvReaderAt (desc : Descriptor)
| EvReaderAtClose (ra : RA) (res : option error)
| EvGetProcessor (arg : StreamProcessor)
| EvProcessorClose (p : StreamProcessor) (res : option error)
| EvMountFailed (e : error)
| EvMount (root : string)
| EvCallback (root : string)
| EvUnmount (root : string) (res : option error)
| EvLog (d : Z) (dgst : string) (size : Z) (media : string).

Record World : Type := {
  fs : FS;
  trace : list Event
}.

(** The kinds of event the statements below select from a trace. *)
Definition is_log (ev : Event) : bool :=
  match ev with
  | EvLog _ _ _ _ => true
  | _ => false
  end.

Definition is_close (ev : Event) : bool :=
  match ev with
  | EvReaderAtClose _ _ | EvProcessorClose _ _ => true
  | _ => false
  end.

Definition emit (ev : Event) (w : World) : World :=
  {| fs := fs w; trace := trace w ++ [ev] |}.

(** One step of [archive.Apply(ctx, root, rc)]: it reads from [rc], it
    changes the filesystem, or it returns [(n, err)]. *)
Inductive ArchStep : Type :=
| ArchRead (len : nat) (k : list byte -> option error -> X)
| ArchFS (fs' : FS) (x' : X)
| ArchReturn (n : Z) (err : option error).

(** The collaborators of [Apply]; none of them is in the file. *)
Record Collaborators : Type := {
  (** the wall clock read by [time.Now] and [time.Since] *)
  time_Now : World -> Z;
  (** [s.store.ReaderAt(ctx, desc)] and [ra.Close()] *)
  store_ReaderAt : Descriptor -> RA + error;
  ra_Close : RA -> option error;
  (** [content.NewReader(ra)] *)
  content_NewReader : RA -> St;
  (** [Read(p)] on a stream, [len(p)] given: the bytes [p[:n]], the error
      and the stream afterwards *)
  stream_Read : St -> nat -> list byte * option error * St;
  (** [diff.GetProcessor(ctx, processor, payloads)] and
      [processor.Close()] *)
  diff_GetProcessor :
    StreamProcessor -> list (string * Any) -> StreamProcessor + error;
  processor_Close : StreamProcessor -> option error;
  (** [digest.Canonical]: the digest of the bytes written to the hash *)
  digester_Digest : Hash -> string;
  (** acquiring and releasing the temporary mount *)
  mount_acquire : list Mount -> FS -> (string + error) * FS;
  mount_release : string -> FS -> option error * FS;
  (** [archive.Apply]: its state on entry and its step function *)
  archive_init : string -> X;
  archive_step : X -> FS -> ArchStep
}.

Variable E : Collaborators.

(** [io.TeeReader(r, w)] with [w] a [hash.Hash]:
<<
    n, err = t.r.Read(p)
    if n > 0 {
        if n, err := t.w.Write(p[:n]); err != nil { return n, err }
    }
    return
>> *)
Record teeReader : Type := {
  tee_r : St;
  tee_w : Hash
}.

Definition teeReader_Read (t : teeReader) (len : nat)
  : list byte * option error * teeReader :=
  let '(p, err, r') := stream_Read E (tee_r t) len in
  if (0 <? List.length p)%nat then
    let '(n, werr, w') := Hash_Write (tee_w t) p in
    match werr with
    | Some e => (firstn n p, Some e, {| tee_r := r'; tee_w := w' |})
    | None => (p, err, {| tee_r := r'; tee_w := w' |})
    end
  else (p, err, {| tee_r := r'; tee_w := tee_w t |}).

(** [type readCounter struct { r io.Reader; c int64 }] *)
Record readCounter : Type := {
  r : teeReader;
  c : Z
}.

(** [func (rc *readCounter) Read(p []byte) (n int, err error)] *)
Definition readCounter_Read (rc : readCounter) (len : nat)
  : list byte * option error * readCounter :=
  let '(p, err, r') := teeReader_Read (r rc) len in
  (p, err, {| r := r'; c := wrap64 (c rc + Z.of_nat (List.length p)) |}).

(** [io.Copy(ioutil.Discard, rc)]: [rc] has no [WriteTo] and
    [ioutil.Discard] has [ReadFrom], so the copy is that method's loop over
    an 8192-byte buffer:
<<
    for {
        readSize, err = r.Read(buf)
        n += int64(readSize)
        if err != nil {
            if err == EOF { return n, nil }
            return
        }
    }
>>
    [None] is a loop that has not ended within [fuel] reads. *)
Fixpoint io_Copy_Discard (fuel : nat) (rc : readCounter) (n : Z)
  : option (Z * option error * readCounter) :=
  match fuel with
  | O => None
  | S fuel' =>
      let '(p, err, rc') := readCounter_Read rc 8192 in
      let n' := wrap64 (n + Z.of_nat (List.length p)) in
      match err with
      | Some e =>
          if is_EOF e then Some (n', None, rc') else Some (n', Some e, rc')
      | None => io_Copy_Discard fuel' rc' n'
      end
  end.

(** [archive.Apply(ctx, root, rc)] run from state [x]. *)
Fixpoint archive_Apply (fuel : nat) (x : X) (f : FS) (rc : readCounter)
  : option (Z * option error * readCounter * FS) :=
  match fuel with
  | O => None
  | S fuel' =>
      match archive_step E x f with
      | ArchReturn n err => Some (n, err, rc, f)
      | ArchFS f' x' => archive_Apply fuel' x' f' rc
      | ArchRead len k =>
          let '(p, err, rc') := readCounter_Read rc len in
          archive_Apply fuel' (k p err) f rc'
      end
  end.

(** The function literal handed to [mount.WithTempMount]:
<<
    if _, err := archive.Apply(ctx, root, rc); err != nil { return err }
    // Read any trailing data
    _, err := io.Copy(ioutil.Discard, rc)
    return err
>> *)
Definition callback (fuel : nat) (root : string) (rc : readCounter) (f : FS)
  : option (option error * readCounter * FS) :=
  match archive_Apply fuel (archive_init E root) f rc with
  | None => None
  | Some (_, Some e, rc', f') => Some (Some e, rc', f')
  | Some (_, None, rc', f') =>
      match io_Copy_Discard fuel rc' 0 with
      | None => None
      | Some (_, err, rc'') => Some (err, rc'', f')
      end
  end.

(** Modelled from the spec: [mount.WithTempMount] is not in the file.  "Given
    a MountSpec, acquire a real filesystem path usable for write operations,
    invoke exactly one caller-supplied operation with that path, and
    guarantee release [...] on every exit path"; the acquisition's failure
    is reported without running the operation; when the operation and the
    release both fail the operation's error is the one returned and the
    release's error is only recorded. *)
Definition WithTempMount {T : Type} (mounts : list Mount)
    (f : string -> T -> FS -> option (option error * T * FS))
    (t : T) (w : World) : option (option error * T * World) :=
  match mount_acquire E mounts (fs w) with
  | (inr e, f1) =>
      Some (Some e, t, {| fs := f1; trace := trace w ++ [EvMountFailed e] |})
  | (inl root, f1) =>
      match f root t f1 with
      | None => None
      | Some (res, t', f2) =>
          let '(u, f3) := mount_release E root f2 in
          Some (match res with Some e => Some e | None => u end,
                t',
                {| fs := f3;
                   trace := trace w ++
                     [EvMount root; EvCallback root; EvUnmount root u] |})
      end
  end.

(** Modelled from the spec: [diff.NewProcessorChain(mt, r)] is not in the
    file; it is the raw store stream under the descriptor's label ("the raw
    store stream on the first iteration"). *)
Definition NewProcessorChain (mt : string) (s : St) : StreamProcessor :=
  {| sp_MediaType := mt; sp_stream := s |}.

(** [for _, o := range opts { if err := o(ctx, desc, &config); err != nil
    { return ... } }]: the configuration after the options, or the first
    error. *)
Fixpoint apply_opts (opts : list ApplyOpt) (desc : Descriptor)
    (config : ApplyConfig) : ApplyConfig + error :=
  match opts with
  | [] => inl config
  | o :: rest =>
      match o desc config with
      | (_, Some e) => inr e
      | (config', None) => apply_opts rest desc config'
      end
  end.

(** The loop over [diff.GetProcessor]:
<<
    for {
        if processor, err = diff.GetProcessor(ctx, processor,
               config.ProcessorPayloads); err != nil { return ... }
        if processor.MediaType() == ocispec.MediaTypeImageLayer { break }
    }
>>
    [None] is a loop that has not ended within [fuel] rounds. *)
Fixpoint resolve (fuel : nat) (payloads : list (string * Any))
    (processor : StreamProcessor) (w : World)
  : option ((StreamProcessor + error) * World) :=
  match fuel with
  | O => None
  | S fuel' =>
      let w1 := emit (EvGetProcessor processor) w in
      match diff_GetProcessor E processor payloads with
      | inr e => Some (inr e, w1)
      | inl p' =>
          if (sp_MediaType p' =? MediaTypeImageLayer)%string
          then Some (inl p', w1)
          else resolve fuel' payloads p' w1
      end
  end.

(** [digest.Canonical.Digester()]: a hash nothing has been written to. *)
Definition newDigester : Hash := [].

(** [rc := &readCounter{ r: io.TeeReader(processor, digester.Hash()) }];
    the count starts at zero. *)
Definition newReadCounter (processor : StreamProcessor) (digester : Hash)
  : readCounter :=
  {| r := {| tee_r := sp_stream processor; tee_w := digester |}; c := 0 |}.

(** [Apply] from [digester := digest.Canonical.Digester()] to its last
    [return]. *)
Definition Apply_extract (fuel : nat) (mounts : list Mount)
    (processor : StreamProcessor) (w : World)
  : option (Descriptor * option error * World) :=
  let digester := newDigester in
  let rc := newReadCounter processor digester in
  match WithTempMount mounts (callback fuel) rc w with
  | None => None
  | Some (Some e, _, w') => Some (emptyDesc, Some e, w')
  | Some (None, rc', w') =>
      Some ({| MediaType := MediaTypeImageLayer;
               Digest := digester_Digest E (tee_w (r rc'));
               Size := c rc';
               URLs := []; Annotations := []; Platform_ := None |},
            None, w')
  end.

(** [Apply] from [processor := diff.NewProcessorChain(...)] on; the
    deferred [processor.Close()] runs when the rest has returned, and its
    result is dropped. *)
Definition Apply_resolve (fuel : nat) (desc : Descriptor)
    (mounts : list Mount) (config : ApplyConfig) (ra : RA) (w : World)
  : option (Descriptor * option error * World) :=
  let processor :=
    NewProcessorChain (MediaType desc) (content_NewReader E ra) in
  match resolve fuel (ProcessorPayloads config) processor w with
  | None => None
  | Some (inr e, w') =>
      Some (emptyDesc,
            errors_Wrap (Some e)
              ("failed to get stream processor for " ++ MediaType desc)%string,
            w')
  | Some (inl processor', w') =>
      match Apply_extract fuel mounts processor' w' with
      | None => None
      | Some (d, err, w'') =>
          Some (d, err,
                emit (EvProcessorClose processor'
                        (processor_Close E processor')) w'')
      end
  end.

(** [Apply] below its first [defer]: the options, the store's reader with
    its deferred [ra.Close()], and the rest. *)
Definition Apply_body (fuel : nat) (desc : Descriptor)
    (mounts : list Mount) (opts : list ApplyOpt) (w : World)
  : option (Descriptor * option error * World) :=
  match apply_opts opts desc zeroConfig with
  | inr e =>
      Some (emptyDesc, errors_Wrap (Some e) "failed to apply config opt", w)
  | inl config =>
      let w1 := emit (EvReaderAt desc) w in
      match store_ReaderAt E desc with
      | inr e =>
          Some (emptyDesc,
                errors_Wrap (Some e)
                  "failed to get reader from content store",
                w1)
      | inl ra =>
          match Apply_resolve fuel desc mounts config ra w1 with
          | None => None
          | Some (d, err, w') =>
              Some (d, err, emit (EvReaderAtClose ra (ra_Close E ra)) w')
          end
      end
  end.

(** The first [defer] of [Apply], run last: the debug record, written when
    the named result [err] is nil. *)
Definition deferred_log (t1 : Z) (desc : Descriptor) (err : option error)
    (w : World) : World :=
  match err with
  | None =>
      emit (EvLog (time_Now E w - t1) (Digest desc) (Size desc)
              (MediaType desc)) w
  | Some _ => w
  end.

(** [func (s *fsApplier) Apply(ctx, desc, mounts, opts...) (d, err)].
    [fuel] bounds each of the loops the call runs (the processor loop, the
    extractor, the copy to [ioutil.Discard]); [None] is a call that has not
    returned within it. *)
Definition Apply (fuel : nat) (desc : Descriptor) (mounts : list Mount)
    (opts : list ApplyOpt) (w : World)
  : option (Descriptor * option error * World) :=
  let t1 := time_Now E w in
  match Apply_body fuel desc mounts opts w with
  | None => None
  | Some (d, err, w') => Some (d, err, deferred_log t1 desc err w')
  end.

(** *** Vocabulary of the statements *)

(** [extends w w' evs]: from [w] to [w'] the events [evs] were appended. *)
Definition extends (w w' : World) (evs : list Event) : Prop :=
  trace w' = trace w ++ evs.

(** [stream_reads s bytes s']: some sequence of [Read] calls, of any
    lengths and whatever errors they reported, takes the stream from [s]
    to [s'] and delivers [bytes] in all. *)
Inductive stream_reads : St -> list byte -> St -> Prop :=
| reads_nil (s : St) : stream_reads s [] s
| reads_snoc (s s1 s2 : St) (bytes p : list byte) (len : nat)
    (err : option error) :
    stream_reads s bytes s1 ->
    stream_Read E s1 len = (p, err, s2) ->
    stream_reads s (bytes ++ p) s2.

(** [reads_to_EOF s bytes s']: reading [s] through an 8192-byte buffer
    delivers [bytes] without an error and then reports [io.EOF], leaving
    the stream at [s']: [bytes] is all that was left in [s]. *)
Inductive reads_to_EOF : St -> list byte -> St -> Prop :=
| to_EOF_last (s s' : St) (p : list byte) :
    stream_Read E s 8192 = (p, Some EOF, s') ->
    reads_to_EOF s p s'
| to_EOF_more (s s1 s' : St) (p rest : list byte) :
    stream_Read E s 8192 = (p, None, s1) ->
    reads_to_EOF s1 rest s' ->
    reads_to_EOF s (p ++ rest) s'.

(** [rc_tracks s0 bytes rc]: the Canonical Reader [rc], made over the
    stream [s0], has so far delivered [bytes]: they are what its hash
    holds, and their number is its count. *)
Definition rc_tracks (s0 : St) (bytes : list byte) (rc : readCounter)
  : Prop :=
  stream_reads s0 bytes (tee_r (r rc)) /\
  tee_w (r rc) = bytes /\
  c rc = wrap64 (Z.of_nat (List.length bytes)).

(** [resolves_to payloads p calls p']: starting from [p], [GetProcessor] is
    called on the stages [calls] in turn, each but the last returning a
    stage that does not report the canonical label and is the next to be
    called on, the last returning [p'], which reports it. *)
Inductive resolves_to (payloads : list (string * Any))
  : StreamProcessor -> list StreamProcessor -> StreamProcessor -> Prop :=
| resolves_last (p p' : StreamProcessor) :
    diff_GetProcessor E p payloads = inl p' ->
    sp_MediaType p' = MediaTypeImageLayer ->
    resolves_to payloads p [p] p'
| resolves_step (p q p' : StreamProcessor) (calls : list StreamProcessor) :
    diff_GetProcessor E p payloads = inl q ->
    sp_MediaType q <> MediaTypeImageLayer ->
    resolves_to payloads q calls p' ->
    resolves_to payloads p (p :: calls) p'.

(** The [ra.Close()] events of a trace. *)
Definition is_ra_close (ev : Event) : bool :=
  match ev with
  | EvReaderAtClose _ _ => true
  | _ => false
  end.

End Model.

End DiffApply.

(** ** Package [auth] *)
Module Auth.

(** The errors of this package: an opaque or [errors.New] error, the
    [ErrUnexpectedStatus] struct, and [errors.WithStack]. *)
Inductive error : Type :=
| ErrNew (msg : string)
| ErrUnexpectedStatus (Status : string) (StatusCode : Z) (Body : list byte)
| WithStack (cause : error).

(** The [Error()] method. *)
Fixpoint Error (e : error) : string :=
  match e with
  | ErrNew msg => msg
  | ErrUnexpectedStatus status _ _ => "unexpected status: " ++ status
  | WithStack cause => Error cause
  end.

(** [var ErrNoToken = errors.New(...)] *)
Definition ErrNoToken : error :=
  ErrNew "authorization server did not include a token in the response".

(** What a call returns: the pair [(string, error)], or a run-time panic. *)
Inductive Outcome : Type :=
| Returns (token : string) (err : option error)
| Panics.

(** [url.Values] and [http.Header]: [map[string][]string], kept as
    association lists with one entry per key. *)
Definition Values : Type := list (string * list string).

Fixpoint Values_Get (m : Values) (k : string) : list string :=
  match m with
  | [] => []
  | (k', v) :: rest => if (k' =? k)%string then v else Values_Get rest k
  end.

Fixpoint Values_put (m : Values) (k : string) (v : list string) : Values :=
  match m with
  | [] => [(k, v)]
  | (k', v') :: rest =>
      if (k' =? k)%string then (k, v) :: rest
      else (k', v') :: Values_put rest k v
  end.

(** [v.Set(key, value)]: the key's values become the single [value]. *)
Definition Values_Set (m : Values) (k v : string) : Values :=
  Values_put m k [v].

(** [v.Add(key, value)]: [value] is appended to the key's values. *)
Definition Values_Add (m : Values) (k v : string) : Values :=
  Values_put m k (Values_Get m k ++ [v]).

(** [for k, v := range headers { req.Header[k] = append(req.Header[k], v...) }] *)
Fixpoint Header_merge (h headers : Values) : Values :=
  match headers with
  | [] => h
  | (k, v) :: rest => Header_merge (Values_put h k (Values_Get h k ++ v)) rest
  end.

(** [strings.Join(a, sep)] *)
Fixpoint strings_Join (a : list string) (sep : string) : string :=
  match a with
  | [] => ""
  | [x] => x
  | x :: rest => x ++ sep ++ strings_Join rest sep
  end.

(** [type TokenOptions struct] *)
Record TokenOptions : Type := {
  Realm : string;
  Service : string;
  Scopes : list string;
  Username : string;
  Secret : string
}.

(** [type postTokenResponse struct] and [type getTokenResponse struct];
    [IssuedAt] is a [time.Time], kept as the text it was decoded from. *)
Record postTokenResponse : Type := {
  post_AccessToken : string;
  post_RefreshToken : string;
  post_ExpiresIn : Z;
  post_IssuedAt : string;
  post_Scope : string
}.

Record getTokenResponse : Type := {
  Token : string;
  AccessToken : string;
  ExpiresIn : Z;
  IssuedAt : string;
  RefreshToken : string
}.

(** [resp.Body]: the bytes the body delivers, and the error that ends them
    when it is not [io.EOF]. *)
Record ReadCloser : Type := {
  body_bytes : list byte;
  body_err : option error
}.

(** The fields of [http.Response] the code reads; [Body] may be nil. *)
Record Response : Type := {
  resp_Status : string;
  resp_StatusCode : Z;
  resp_Body : option ReadCloser
}.

(** The fields of [http.Request] the code sets. *)
Record Request : Type := {
  req_Method : string;
  req_URL : string;
  req_RawQuery : string;
  req_Header : Values;
  req_Body : option string
}.

(** [ioutil.ReadAll(io.LimitReader(resp.Body, 64000))] with the error
    dropped ([b, _ =]): the body's first 64000 bytes, fewer when it ends
    earlier, by EOF or by an error. *)
Definition ReadAll_Limit (body : ReadCloser) (n : nat) : list byte :=
  firstn n (body_bytes body).

(** [func newUnexpectedStatusErr(resp *http.Response) error] *)
Definition newUnexpectedStatusErr (resp : Response) : error :=
  let b :=
    match resp_Body resp with
    | Some body => ReadAll_Limit body 64000
    | None => []
    end in
  ErrUnexpectedStatus (resp_Status resp) (resp_StatusCode resp) b.

Section Fetch.

(** The standard library and the HTTP client, as the two functions use
    them. *)
Record Net : Type := {
  (** [http.NewRequest(method, url, body)] *)
  http_NewRequest : string -> string -> option string -> Request + error;
  (** [ctxhttp.Do(ctx, client, req)] *)
  ctxhttp_Do : Request -> Response + error;
  (** [url.Values.Encode] and [req.URL.Query()] *)
  Values_Encode : Values -> string;
  url_Query : Request -> Values;
  (** the value [req.SetBasicAuth] gives the Authorization header *)
  basicAuth : string -> string -> string;
  (** [json.NewDecoder(resp.Body).Decode(&tr)] at the two types *)
  json_Decode_post : ReadCloser -> postTokenResponse + error;
  json_Decode_get : ReadCloser -> getTokenResponse + error
}.

Variable net : Net.

(** [resp.StatusCode < 200 || resp.StatusCode >= 400] *)
Definition unexpected_status (resp : Response) : bool :=
  (resp_StatusCode resp <? 200)%Z || (resp_StatusCode resp >=? 400)%Z.

(** [FetchTokenWithOAuth] up to [ctxhttp.Do]: the form and the request;
    [headers] is [None] for a nil map. *)
Definition oauthRequest (headers : option Values) (clientID : string)
    (to : TokenOptions) : Request + error :=
  let form : Values := [] in
  let form :=
    if (0 <? List.length (Scopes to))%nat
    then Values_Set form "scope" (strings_Join (Scopes to) " ")
    else form in
  let form := Values_Set form "service" (Service to) in
  let form := Values_Set form "client_id" clientID in
  let form :=
    if (Username to =? "")%string then
      Values_Set (Values_Set form "grant_type" "refresh_token")
        "refresh_token" (Secret to)
    else
      Values_Set (Values_Set (Values_Set form "grant_type" "password")
                    "username" (Username to))
        "password" (Secret to) in
  match http_NewRequest net "POST" (Realm to)
          (Some (Values_Encode net form)) with
  | inr err => inr err
  | inl req =>
      let hdr :=
        Values_Set (req_Header req) "Content-Type"
          "application/x-www-form-urlencoded; charset=utf-8" in
      let hdr :=
        match headers with
        | Some hs => Header_merge hdr hs
        | None => hdr
        end in
      inl {| req_Method := req_Method req; req_URL := req_URL req;
             req_RawQuery := req_RawQuery req; req_Header := hdr;
             req_Body := req_Body req |}
  end.

(** [func FetchTokenWithOAuth(ctx, client, headers, clientID, to)] *)
Definition FetchTokenWithOAuth (headers : option Values) (clientID : string)
    (to : TokenOptions) : Outcome :=
  match oauthRequest headers clientID to with
  | inr err => Returns "" (Some err)
  | inl req =>
      match ctxhttp_Do net req with
      | inr err => Returns "" (Some err)
      | inl resp =>
          (* defer resp.Body.Close() *)
          match resp_Body resp with
          | None => Panics
          | Some body =>
              if unexpected_status resp then
                Returns "" (Some (WithStack (newUnexpectedStatusErr resp)))
              else
                match json_Decode_post net body with
                | inr err =>
                    Returns ""
                      (Some (ErrNew ("unable to decode token response: "
                                     ++ Error err)))
                | inl tr => Returns (post_AccessToken tr) None
                end
          end
      end
  end.

(** [FetchToken] up to [ctxhttp.Do]: the request with its headers, query
    and basic authentication. *)
Definition getRequest (headers : option Values) (to : TokenOptions)
  : Request + error :=
  match http_NewRequest net "GET" (Realm to) None with
  | inr err => inr err
  | inl req =>
      let hdr :=
        match headers with
        | Some hs => Header_merge (req_Header req) hs
        | None => req_Header req
        end in
      let reqParams := url_Query net req in
      let reqParams :=
        if negb (Service to =? "")%string
        then Values_Add reqParams "service" (Service to)
        else reqParams in
      let reqParams :=
        fold_left (fun ps scope => Values_Add ps "scope" scope)
          (Scopes to) reqParams in
      let hdr :=
        if negb (Secret to =? "")%string
        then Values_Set hdr "Authorization"
               (basicAuth net (Username to) (Secret to))
        else hdr in
      inl {| req_Method := req_Method req; req_URL := req_URL req;
             req_RawQuery := Values_Encode net reqParams; req_Header := hdr;
             req_Body := req_Body req |}
  end.

(** What [FetchToken] does with a decoded body: [access_token] takes the
    place of [token] when it is not empty, and an empty token is
    [ErrNoToken]. *)
Definition tokenOf (tr : getTokenResponse) : Outcome :=
  let token :=
    if negb (AccessToken tr =? "")%string
    then AccessToken tr else Token tr in
  if (token =? "")%string
  then Returns "" (Some ErrNoToken)
  else Returns token None.

(** [func FetchToken(ctx, client, headers, to)] *)
Definition FetchToken (headers : option Values) (to : TokenOptions)
  : Outcome :=
  match getRequest headers to with
  | inr err => Returns "" (Some err)
  | inl req =>
      match ctxhttp_Do net req with
      | inr err => Returns "" (Some err)
      | inl resp =>
          (* defer resp.Body.Close() *)
          match resp_Body resp with
          | None => Panics
          | Some body =>
              if unexpected_status resp then
                Returns "" (Some (WithStack (newUnexpectedStatusErr resp)))
              else
                match json_Decode_get net body with
                | inr err =>
                    Returns ""
                      (Some (ErrNew ("unable to decode token response: "
                                     ++ Error err)))
                | inl tr => tokenOf tr
                end
          end
      end
  end.

End Fetch.

(** The form [FetchTokenWithOAuth] encodes into the body of its request:
<<
    form := url.Values{}
    if len(to.Scopes) > 0 { form.Set("scope", strings.Join(to.Scopes, " ")) }
    form.Set("service", to.Service)
    form.Set("client_id", clientID)
    if to.Username == "" {
        form.Set("grant_type", "refresh_token")
        form.Set("refresh_token", to.Secret)
    } else {
        form.Set("grant_type", "password")
        form.Set("username", to.Username)
        form.Set("password", to.Secret)
    }
>> *)
Definition oauthForm (clientID : string) (to : TokenOptions) : Values :=
  let form : Values := [] in
  let form :=
    if (0 <? List.length (Scopes to))%nat
    then Values_Set form "scope" (strings_Join (Scopes to) " ")
    else form in
  let form := Values_Set form "service" (Service to) in
  let form := Values_Set form "client_id" clientID in
  if (Username to =? "")%string then
    Values_Set (Values_Set form "grant_type" "refresh_token")
      "refresh_token" (Secret to)
  else
    Values_Set (Values_Set (Values_Set form "grant_type" "password")
                  "username" (Username to))
      "password" (Secret to).

(** The query [FetchToken] encodes into its request, from the parameters
    [reqParams := req.URL.Query()] the realm URL came with:
<<
    if to.Service != "" { reqParams.Add("service", to.Service) }
    for _, scope := range to.Scopes { reqParams.Add("scope", scope) }
>> *)
Definition getParams (reqParams : Values) (to : TokenOptions) : Values :=
  let reqParams :=
    if negb (Service to =? "")%string
    then Values_Add reqParams "service" (Service to)
    else reqParams in
  fold_left (fun ps scope => Values_Add ps "scope" scope)
    (Scopes to) reqParams.

(** [TokenOptions{}] *)
Definition zeroTokenOptions : TokenOptions :=
  {| Realm := ""; Service := ""; Scopes := []; Username := ""; Secret := "" |}.

(** [type Challenge struct]: the file reads its field [Parameters], a
    [map[string]string], and nothing else of it. *)
Record Challenge : Type := {
  Parameters : list (string * string)
}.

(** [v, ok := m[k]] *)
Fixpoint Parameters_lookup (m : list (string * string)) (k : string)
  : option string :=
  match m with
  | [] => None
  | (k', v) :: rest =>
      if (k' =? k)%string then Some v else Parameters_lookup rest k
  end.

(** [m[k]]: the zero value when the key is missing. *)
Definition Parameters_get (m : list (string * string)) (k : string) : string :=
  match Parameters_lookup m k with
  | Some v => v
  | None => ""
  end.

(** What [GenerateTokenOptions] returns as its error: an error as it is, or
    [errors.Wrap(cause, msg)]. *)
Inductive wrapped : Type :=
| Plain (e : error)
| Wrap (cause : error) (msg : string).

(** A record written with [log.G(ctx).WithField("host", host).Debug(msg)]. *)
Record DebugRecord : Type := {
  log_host : string;
  log_msg : string
}.

Section Challenges.

(** [url.Parse] and the [String] method of the URL it returns. *)
Context {URL : Type}.
Variable url_Parse : string -> URL + error.
Variable URL_String : URL -> string.

(** [func GenerateTokenOptions(ctx, host, username, secret, c)
    (TokenOptions, error)], with the debug records it writes. *)
Definition GenerateTokenOptions (host username secret : string)
    (c : Challenge) : TokenOptions * option wrapped * list DebugRecord :=
  match Parameters_lookup (Parameters c) "realm" with
  | None =>
      (zeroTokenOptions,
       Some (Plain (ErrNew "no realm specified for token auth challenge")),
       [])
  | Some realm =>
      match url_Parse realm with
      | inr err =>
          (zeroTokenOptions,
           Some (Wrap err "invalid token auth challenge realm"), [])
      | inl realmURL =>
          let to :=
            {| Realm := URL_String realmURL;
               Service := Parameters_get (Parameters c) "service";
               Scopes := [];
               Username := username;
               Secret := secret |} in
          match Parameters_lookup (Parameters c) "scope" with
          | Some scope =>
              ({| Realm := Realm to; Service := Service to;
                  Scopes := Scopes to ++ [scope];
                  Username := Username to; Secret := Secret to |},
               None, [])
          | None =>
              (to, None,
               [{| log_host := host;
                   log_msg := "no scope specified for token auth challenge" |}])
          end
      end
  end.

End Challenges.

End Auth.

(** ** A small concrete instance

    A store with two blobs, a decoder registry with a few labels, an
    extractor that reads one header and writes one file.  The statements
    below are evaluated on it. *)
Module Demo.
Import DiffApply.

(** A stream: the bytes left and the error reported once they are gone. *)
Definition St : Type := (list byte * error)%type.
Definition RA : Type := St.
Definition FS : Type := list (string * list byte).

Inductive X : Type :=
| XStart (root : string)
| XGot (root : string) (p : list byte) (err : option error)
| XDone (n : Z) (err : option error).

Definition stream_Read (s : St) (len : nat) : list byte * option error * St :=
  match fst s with
  | [] => ([], Some (snd s), s)
  | _ => (firstn len (fst s), None, (skipn len (fst s), snd s))
  end.

Definition store_ReaderAt (desc : Descriptor) : RA + error :=
  if (Digest desc =? "sha256:aa")%string
  then inl (list_byte_of_string "zhello, layer", EOF)
  else if (Digest desc =? "sha256:bb")%string
  then inl (list_byte_of_string "zhello, layer", ErrNew "unexpected EOF")
  else inr (ErrNew "not found").

Definition gzipLayer : string := "application/vnd.oci.image.layer.v1.tar+gzip".
Definition encLayer : string := "application/vnd.demo.layer+enc".
Definition loopLayer : string := "application/vnd.demo.loop".

(** The registry: the canonical label and its gzip form reach the canonical
    label (the gzip stage drops a one-byte header), the encrypted form
    reaches the gzip form, one label maps to itself, and nothing else is
    registered. *)
Definition diff_GetProcessor (p : @StreamProcessor St)
    (payloads : list (string * Any)) : @StreamProcessor St + error :=
  if (sp_MediaType p =? MediaTypeImageLayer)%string then
    inl {| sp_MediaType := MediaTypeImageLayer; sp_stream := sp_stream p |}
  else if (sp_MediaType p =? gzipLayer)%string then
    inl {| sp_MediaType := MediaTypeImageLayer;
           sp_stream := (skipn 1 (fst (sp_stream p)), snd (sp_stream p)) |}
  else if (sp_MediaType p =? encLayer)%string then
    inl {| sp_MediaType := gzipLayer; sp_stream := sp_stream p |}
  else if (sp_MediaType p =? loopLayer)%string then
    inl {| sp_MediaType := loopLayer; sp_stream := sp_stream p |}
  else inr (ErrNew "no processor for content stream").

(** The extractor reads five bytes, writes them to [root/a] and returns. *)
Definition archive_step (x : X) (f : FS) : @ArchStep X FS :=
  match x with
  | XStart root => ArchRead 5 (fun p err => XGot root p err)
  | XGot root p (Some (ErrNew msg)) =>
      ArchReturn 0 (Some (ErrNew msg))
  | XGot root p _ =>
      ArchFS (((root ++ "/a")%string, p) :: f)
        (XDone (Z.of_nat (List.length p)) None)
  | XDone n err => ArchReturn n err
  end.

Definition E : @Collaborators St RA X FS :=
  {| time_Now := fun w => Z.of_nat (List.length (trace w));
     DiffApply.store_ReaderAt := store_ReaderAt;
     ra_Close := fun _ => None;
     content_NewReader := fun ra => ra;
     DiffApply.stream_Read := stream_Read;
     DiffApply.diff_GetProcessor := diff_GetProcessor;
     processor_Close := fun _ => Some (ErrNew "close failed");
     digester_Digest := fun h => ("sha256:" ++ string_of_list_byte h)%string;
     mount_acquire := fun _ f => (inl "/tmp/m", f);
     mount_release := fun _ f => (None, f);
     archive_init := XStart;
     DiffApply.archive_step := archive_step |}.

Definition descOf (mt dgst : string) : Descriptor :=
  {| MediaType := mt; Digest := dgst; Size := 13; URLs := [];
     Annotations := []; Platform_ := None |}.

Definition w0 : @World St RA FS := {| fs := []; trace := [] |}.

(** An option that records a payload, and one that fails. *)
Definition optPayload : ApplyOpt :=
  fun _ cfg =>
    ({| ProcessorPayloads :=
          ("k", {| TypeUrl := "t"; Value := [] |}) :: ProcessorPayloads cfg |},
     None).

Definition optBad : ApplyOpt :=
  fun _ cfg => (cfg, Some (ErrNew "bad payload")).

(** The runs the statements below are evaluated on. *)
Definition descGzip : Descriptor := descOf gzipLayer "sha256:aa".
Definition descEnc : Descriptor := descOf encLayer "sha256:aa".
Definition descTruncated : Descriptor := descOf gzipLayer "sha256:bb".
Definition descLoop : Descriptor := descOf loopLayer "sha256:aa".
Definition descUnknown : Descriptor := descOf "text/plain" "sha256:aa".

Definition blob : list byte := list_byte_of_string "zhello, layer".
Definition canonical : list byte := list_byte_of_string "hello, layer".

(** The stages of the chain of [descEnc]: the raw stream, the stage that
    reports the gzip label, and the stage that reports the canonical one. *)
Definition stage0 : @StreamProcessor St :=
  {| sp_MediaType := encLayer; sp_stream := (blob, EOF) |}.
Definition stage1 : @StreamProcessor St :=
  {| sp_MediaType := gzipLayer; sp_stream := (blob, EOF) |}.
Definition stage2 : @StreamProcessor St :=
  {| sp_MediaType := MediaTypeImageLayer; sp_stream := (canonical, EOF) |}.

(** The world of [descGzip] once its chain is resolved, and the Canonical
    Reader and the filesystem when the extractor has returned. *)
Definition wResolved : @World St RA FS :=
  {| fs := [];
     trace := [EvReaderAt descGzip;
               EvGetProcessor
                 {| sp_MediaType := gzipLayer; sp_stream := (blob, EOF) |}] |}.


Definition fsExtracted : FS := [("/tmp/m/a", firstn 5 canonical)].

End Demo.

(** A token server that answers by path. *)
Module AuthDemo.
Import Auth.

Definition http_NewRequest (method url : string) (body : option string)
  : Request + error :=
  if (url =? "")%string then inr (ErrNew "empty url")
  else inl {| req_Method := method; req_URL := url; req_RawQuery := "";
              req_Header := []; req_Body := body |}.

Definition ctxhttp_Do (req : Request) : Response + error :=
  if (req_URL req =? "https://auth.test/ok")%string then
    inl {| resp_Status := "200 OK"; resp_StatusCode := 200;
           resp_Body := Some {| body_bytes := list_byte_of_string "tok-200";
                                body_err := None |} |}
  else if (req_URL req =? "https://auth.test/moved")%string then
    inl {| resp_Status := "302 Found"; resp_StatusCode := 302;
           resp_Body := Some {| body_bytes := list_byte_of_string "tok-302";
                                body_err := None |} |}
  else if (req_URL req =? "https://auth.test/denied")%string then
    inl {| resp_Status := "401 Unauthorized"; resp_StatusCode := 401;
           resp_Body := Some {| body_bytes := list_byte_of_string "denied";
                                body_err := None |} |}
  else inr (ErrNew "no such host").

(** The decoders take the whole body for the token. *)
Definition net : Net :=
  {| Auth.http_NewRequest := http_NewRequest;
     Auth.ctxhttp_Do := ctxhttp_Do;
     Values_Encode := fun v => strings_Join (map fst v) "&";
     url_Query := fun _ => [];
     basicAuth := fun u p => ("Basic " ++ u ++ ":" ++ p)%string;
     json_Decode_post := fun body =>
       inl {| post_AccessToken := string_of_list_byte (body_bytes body);
              post_RefreshToken := ""; post_ExpiresIn := 0;
              post_IssuedAt := ""; post_Scope := "" |};
     json_Decode_get := fun body =>
       inl {| Token := string_of_list_byte (body_bytes body);
              AccessToken := ""; ExpiresIn := 0; IssuedAt := "";
              RefreshToken := "" |} |}.

Definition toOf (realm : string) : TokenOptions :=
  {| Realm := realm; Service := "registry"; Scopes := ["repository:a:pull"];
     Username := ""; Secret := "s3cr3t" |}.

End AuthDemo.

(** More of the concrete instance: a store whose stream fails on its first
    read, so that the extractor fails, and a challenge with its URL parser. *)
Module DemoMore.
Import DiffApply.

Definition brokenStream : Demo.St := ([], ErrNew "read failed").

Definition E : @Collaborators Demo.St Demo.RA Demo.X Demo.FS :=
  {| time_Now := fun w => Z.of_nat (List.length (trace w));
     store_ReaderAt := fun _ => inl brokenStream;
     ra_Close := fun _ => None;
     content_NewReader := fun ra => ra;
     stream_Read := Demo.stream_Read;
     diff_GetProcessor := Demo.diff_GetProcessor;
     processor_Close := fun _ => None;
     digester_Digest := fun h => ("sha256:" ++ string_of_list_byte h)%string;
     mount_acquire := fun _ f => (inl "/tmp/m", f);
     mount_release := fun _ f => (None, f);
     archive_init := Demo.XStart;
     archive_step := Demo.archive_step |}.

Definition descLayer : Descriptor := Demo.descOf MediaTypeImageLayer "sha256:cc".

Definition stageBroken : @StreamProcessor Demo.St :=
  {| sp_MediaType := MediaTypeImageLayer; sp_stream := brokenStream |}.

Definition wResolved : @World Demo.St Demo.RA Demo.FS :=
  {| fs := [];
     trace := [EvReaderAt descLayer; EvGetProcessor stageBroken] |}.

(** The Canonical Reader of [Demo.descGzip] when the drain has ended. *)
Definition rcDrained : @readCounter Demo.St :=
  {| r := {| tee_r := ([], EOF); tee_w := Demo.canonical |}; c := 12 |}.

Definition url_Parse (s : string) : string + Auth.error :=
  if (s =? "")%string then inr (Auth.ErrNew "empty url") else inl s.

Definition challenge : Auth.Challenge :=
  {| Auth.Parameters :=
       [("realm", "https://auth.test/ok"); ("service", "registry");
        ("scope", "repository:a:pull")] |}.

Definition headers : Auth.Values :=
  [("Content-Type", ["text/plain"]); ("Authorization", ["Bearer old"])].

End DemoMore.

(** * Properties *)

Import DiffApply.

Section ApplyFacts.

Context {St RA X FS : Type}.
Variable E : @Collaborators St RA X FS.


Lemma wrap64_add_l (a b : Z) : wrap64 (wrap64 a + b) = wrap64 (a + b).
Proof.
  unfold wrap64.
  replace ((a + 2 ^ 63) mod 2 ^ 64 - 2 ^ 63 + b + 2 ^ 63)%Z
    with ((a + 2 ^ 63) mod 2 ^ 64 + b)%Z by lia.
  rewrite Zplus_mod_idemp_l.
  f_equal. f_equal. lia.
Qed.

(** The tee over a hash never changes what the source returned: the write
    cannot fail, and an empty read writes nothing. *)
Lemma teeReader_Read_eq (t : teeReader) (len : nat) :
  teeReader_Read E t len =
    (fst (fst (stream_Read E (tee_r t) len)),
     snd (fst (stream_Read E (tee_r t) len)),
     {| tee_r := snd (stream_Read E (tee_r t) len);
        tee_w := tee_w t ++ fst (fst (stream_Read E (tee_r t) len)) |}).
Proof.
  unfold teeReader_Read, Hash_Write.
  destruct (stream_Read E (tee_r t) len) as [[p err] s']; cbn [fst snd].
  destruct p as [|b p]; cbn.
  - rewrite app_nil_r. reflexivity.
  - reflexivity.
Qed.

(** C2.  One [Read] on the Canonical Reader (the [readCounter] over the
    tee of the processor stream and the digester's hash) is one [Read] of
    the same length on the underlying source; the bytes and the error it
    returns are the source's, unchanged, so read boundaries, short reads
    and errors pass through; exactly those bytes are appended to the hash;
    and their number is added (as an [int64]) to the running count. *)
Theorem C2_readCounter_Read_forwards (rc : readCounter) (len : nat) :
  let res := stream_Read E (tee_r (r rc)) len in
  readCounter_Read E rc len =
    (fst (fst res), snd (fst res),
     {| r := {| tee_r := snd res;
                tee_w := tee_w (r rc) ++ fst (fst res) |};
        c := wrap64 (c rc + Z.of_nat (List.length (fst (fst res)))) |}).
Proof.
  intros res. unfold readCounter_Read.
  rewrite teeReader_Read_eq. reflexivity.
Qed.

(** *** What each part of [Apply] appends to the trace *)

Lemma extends_trans (w1 w2 w3 : @World St RA FS)
    (evs1 evs2 : list (@Event St RA)) :
  extends w1 w2 evs1 -> extends w2 w3 evs2 -> extends w1 w3 (evs1 ++ evs2).
Proof.
  unfold extends. intros H1 H2. rewrite H2, H1, app_assoc. reflexivity.
Qed.

Lemma extends_emit (ev : @Event St RA) (w : @World St RA FS) :
  extends w (emit ev w) [ev].
Proof. reflexivity. Qed.

Lemma filter_GetProcessor (q : @Event St RA -> bool) args :
  (forall a, q (EvGetProcessor a) = false) ->
  filter q (map (@EvGetProcessor St RA) args) = [].
Proof.
  intros Hq. induction args as [|a args IH]; cbn.
  - reflexivity.
  - rewrite Hq. exact IH.
Qed.

(** The loop calls [GetProcessor] and nothing else, and leaves the
    filesystem alone. *)
Lemma resolve_extends fuel payloads :
  forall p w res w',
    resolve E fuel payloads p w = Some (res, w') ->
    fs w' = fs w /\
    exists args, extends w w' (map (@EvGetProcessor St RA) args).
Proof.
  induction fuel as [|fuel IH]; intros p w res w' H; cbn in H.
  - discriminate.
  - destruct (diff_GetProcessor E p payloads) as [p'|e].
    + destruct (sp_MediaType p' =? MediaTypeImageLayer)%string.
      * inversion H; subst. split; [reflexivity|].
        exists [p]. reflexivity.
      * apply IH in H. destruct H as [Hfs [args Hargs]].
        split; [exact Hfs|].
        exists (p :: args). unfold extends in *. rewrite Hargs.
        cbn. rewrite <- app_assoc. reflexivity.
    + inversion H; subst. split; [reflexivity|].
      exists [p]. reflexivity.
Qed.

(** A stage the loop hands on reports the canonical label. *)
Lemma resolve_canonical fuel payloads :
  forall p w p' w',
    resolve E fuel payloads p w = Some (inl p', w') ->
    sp_MediaType p' = MediaTypeImageLayer.
Proof.
  induction fuel as [|fuel IH]; intros p w p' w' H; cbn in H.
  - discriminate.
  - destruct (diff_GetProcessor E p payloads) as [q|e]; [|discriminate].
    destruct (sp_MediaType q =? MediaTypeImageLayer)%string eqn:Hq.
    + inversion H; subst. apply String.eqb_eq. exact Hq.
    + eapply IH. exact H.
Qed.

Lemma WithTempMount_extends {T : Type} mounts
    (f : string -> T -> FS -> option (option error * T * FS)) t w res t' w' :
  WithTempMount E mounts f t w = Some (res, t', w') ->
  exists evs, extends w w' evs /\ filter is_log evs = []
              /\ filter is_close evs = [].
Proof.
  unfold WithTempMount. intros H.
  destruct (mount_acquire E mounts (fs w)) as [[root|e] f1].
  - destruct (f root t f1) as [[[res0 t0] f2]|]; [|discriminate].
    destruct (mount_release E root f2) as [u f3].
    inversion H; subst.
    exists [EvMount root; EvCallback root; EvUnmount root u].
    repeat split.
  - inversion H; subst. exists [EvMountFailed e]. repeat split.
Qed.

Lemma Apply_extract_extends fuel mounts p w d err w' :
  Apply_extract E fuel mounts p w = Some (d, err, w') ->
  exists evs, extends w w' evs /\ filter is_log evs = []
              /\ filter is_close evs = [].
Proof.
  unfold Apply_extract. intros H.
  destruct (WithTempMount E mounts (callback E fuel) _ w)
    as [[[res rc'] w1]|] eqn:Hm; [|discriminate].
  apply WithTempMount_extends in Hm.
  destruct res; inversion H; subst; exact Hm.
Qed.

(** An error from the mount or from inside it comes with [emptyDesc]. *)
Lemma Apply_extract_error fuel mounts p w d e w' :
  Apply_extract E fuel mounts p w = Some (d, Some e, w') -> d = emptyDesc.
Proof.
  unfold Apply_extract. intros H.
  destruct (WithTempMount E mounts (callback E fuel) _ w)
    as [[[res rc'] w1]|]; [|discriminate].
  destruct res; inversion H; reflexivity.
Qed.

Lemma Apply_resolve_extends fuel desc mounts config ra w d err w' :
  Apply_resolve E fuel desc mounts config ra w = Some (d, err, w') ->
  exists evs, extends w w' evs /\ filter is_log evs = [].
Proof.
  unfold Apply_resolve. intros H.
  destruct (resolve E fuel (ProcessorPayloads config) _ w)
    as [[[p|e] w1]|] eqn:Hr; [| |discriminate].
  - destruct (Apply_extract E fuel mounts p w1)
      as [[[d0 err0] w2]|] eqn:Hx; [|discriminate].
    inversion H; subst.
    apply resolve_extends in Hr. destruct Hr as [_ [args Hargs]].
    apply Apply_extract_extends in Hx. destruct Hx as [evs [Hevs [Hlog _]]].
    eexists. split.
    + eapply extends_trans; [eapply extends_trans; eassumption|].
      apply extends_emit.
    + rewrite !filter_app, Hlog, filter_GetProcessor by reflexivity.
      reflexivity.
  - inversion H; subst.
    apply resolve_extends in Hr. destruct Hr as [_ [args Hargs]].
    eexists. split; [exact Hargs|].
    apply filter_GetProcessor. reflexivity.
Qed.

Lemma Apply_resolve_error fuel desc mounts config ra w d e w' :
  Apply_resolve E fuel desc mounts config ra w = Some (d, Some e, w') ->
  d = emptyDesc.
Proof.
  unfold Apply_resolve. intros H.
  destruct (resolve E fuel (ProcessorPayloads config) _ w)
    as [[[p|e0] w1]|]; [| |discriminate].
  - destruct (Apply_extract E fuel mounts p w1)
      as [[[d0 err0] w2]|] eqn:Hx; [|discriminate].
    inversion H; subst. eapply Apply_extract_error. exact Hx.
  - inversion H; reflexivity.
Qed.

Lemma Apply_body_extends fuel desc mounts opts w d err w' :
  Apply_body E fuel desc mounts opts w = Some (d, err, w') ->
  exists evs, extends w w' evs /\ filter is_log evs = [].
Proof.
  unfold Apply_body. intros H.
  destruct (apply_opts opts desc zeroConfig) as [config|e].
  - destruct (store_ReaderAt E desc) as [ra|e].
    + destruct (Apply_resolve E fuel desc mounts config ra _)
        as [[[d0 err0] w1]|] eqn:Hr; [|discriminate].
      inversion H; subst.
      apply Apply_resolve_extends in Hr. destruct Hr as [evs [Hevs Hlog]].
      eexists. split.
      * eapply extends_trans; [eapply extends_trans|].
        -- apply extends_emit.
        -- exact Hevs.
        -- apply extends_emit.
      * rewrite !filter_app, Hlog. reflexivity.
    + inversion H; subst. exists [EvReaderAt desc]. split; reflexivity.
  - inversion H; subst. exists []. split; [|reflexivity].
    unfold extends. rewrite app_nil_r. reflexivity.
Qed.

Lemma Apply_body_error fuel desc mounts opts w d e w' :
  Apply_body E fuel desc mounts opts w = Some (d, Some e, w') ->
  d = emptyDesc.
Proof.
  unfold Apply_body. intros H.
  destruct (apply_opts opts desc zeroConfig) as [config|e0].
  - destruct (store_ReaderAt E desc) as [ra|e0].
    + destruct (Apply_resolve E fuel desc mounts config ra _)
        as [[[d0 err0] w1]|] eqn:Hr; [|discriminate].
      inversion H; subst. eapply Apply_resolve_error. exact Hr.
    + inversion H; reflexivity.
  - inversion H; reflexivity.
Qed.

(** C8.  Of the events a returning call of [Apply] appends to the trace,
    the log records are: when the returned error is nil, exactly one, the
    last event, carrying the time elapsed since entry and the digest, size
    and media type of the descriptor the caller passed; when the returned
    error is not nil, none. *)
Theorem C8_log_record_iff_success fuel desc mounts opts w d err w' :
  Apply E fuel desc mounts opts w = Some (d, err, w') ->
  exists evs,
    filter is_log evs = [] /\
    trace w' = trace w ++ evs ++
      match err with
      | None =>
          [EvLog (time_Now E {| fs := fs w'; trace := trace w ++ evs |}
                  - time_Now E w)
             (Digest desc) (Size desc) (MediaType desc)]
      | Some _ => []
      end.
Proof.
  unfold Apply. intros H.
  destruct (Apply_body E fuel desc mounts opts w)
    as [[[d0 err0] w1]|] eqn:Hb; [|discriminate].
  inversion H; subst. clear H.
  apply Apply_body_extends in Hb. destruct Hb as [evs [Hevs Hlog]].
  exists evs. split; [exact Hlog|].
  unfold extends in Hevs.
  destruct err as [e|]; cbn.
  - rewrite app_nil_r. exact Hevs.
  - rewrite Hevs, <- app_assoc.
    destruct w1 as [f1 t1]; cbn in *. subst t1. reflexivity.
Qed.

(** C9.  A call of [Apply] that returns an error returns the zero
    descriptor with it, whichever step the error comes from. *)
Theorem C9_error_returns_emptyDesc fuel desc mounts opts w d e w' :
  Apply E fuel desc mounts opts w = Some (d, Some e, w') ->
  d = emptyDesc /\
  MediaType d = "" /\ Size d = 0%Z /\ Digest d = "".
Proof.
  unfold Apply. intros H.
  destruct (Apply_body E fuel desc mounts opts w)
    as [[[d0 err0] w1]|] eqn:Hb; [|discriminate].
  inversion H; subst. clear H.
  apply Apply_body_error in Hb. subst d. repeat split.
Qed.

(** *** The Canonical Reader over a whole run *)

Lemma rc_tracks_new (p : StreamProcessor) :
  rc_tracks E (sp_stream p) [] (newReadCounter p newDigester).
Proof.
  unfold rc_tracks, newReadCounter, newDigester; cbn.
  repeat split. constructor.
Qed.

Lemma readCounter_Read_tracks s0 bytes rc len p err rc' :
  rc_tracks E s0 bytes rc ->
  readCounter_Read E rc len = (p, err, rc') ->
  stream_Read E (tee_r (r rc)) len = (p, err, tee_r (r rc')) /\
  rc_tracks E s0 (bytes ++ p) rc'.
Proof.
  intros (Hreads & Hw & Hc) Hread.
  unfold readCounter_Read in Hread. rewrite teeReader_Read_eq in Hread.
  cbv beta iota in Hread.
  destruct (stream_Read E (tee_r (r rc)) len) as [[p0 err0] s1] eqn:Hs.
  cbn [fst snd] in Hread. inversion Hread; subst p0 err0 rc'. clear Hread.
  cbn [r c tee_r tee_w]. split; [reflexivity|].
  unfold rc_tracks; cbn [r c tee_r tee_w]. repeat split.
  - econstructor; eassumption.
  - rewrite Hw. reflexivity.
  - rewrite Hc, wrap64_add_l, length_app, Nat2Z.inj_add. reflexivity.
Qed.

(** Whatever the extractor does, the reader keeps track. *)
Lemma archive_Apply_tracks s0 fuel :
  forall x f rc bytes n err rc' f',
    rc_tracks E s0 bytes rc ->
    archive_Apply E fuel x f rc = Some (n, err, rc', f') ->
    exists more, rc_tracks E s0 (bytes ++ more) rc'.
Proof.
  induction fuel as [|fuel IH]; intros x f rc bytes n err rc' f' Hrc H;
    cbn in H.
  - discriminate.
  - destruct (archive_step E x f) as [len k|f1 x1|n0 err0].
    + destruct (readCounter_Read E rc len) as [[p e] rc1] eqn:Hread.
      destruct (@readCounter_Read_tracks _ _ _ _ _ _ _ Hrc Hread)
        as [_ Hrc1].
      destruct (IH _ _ _ _ _ _ _ _ Hrc1 H) as [more Hmore].
      exists (p ++ more). rewrite app_assoc. exact Hmore.
    + eapply IH; eassumption.
    + inversion H; subst. exists []. rewrite app_nil_r. exact Hrc.
Qed.

(** A copy to [ioutil.Discard] that returns nil has read the stream to its
    EOF. *)
Lemma io_Copy_Discard_tracks s0 fuel :
  forall rc bytes n k rc',
    rc_tracks E s0 bytes rc ->
    io_Copy_Discard E fuel rc n = Some (k, None, rc') ->
    exists post,
      reads_to_EOF E (tee_r (r rc)) post (tee_r (r rc')) /\
      rc_tracks E s0 (bytes ++ post) rc'.
Proof.
  induction fuel as [|fuel IH]; intros rc bytes n k rc' Hrc H;
    cbn [io_Copy_Discard] in H.
  - discriminate.
  - destruct (readCounter_Read E rc 8192) as [[p err] rc1] eqn:Hread.
    destruct (@readCounter_Read_tracks _ _ _ _ _ _ _ Hrc Hread)
      as [Hs Hrc1].
    destruct err as [e|].
    + destruct e; cbn in H; try discriminate.
      inversion H; subst. exists p. split; [|exact Hrc1].
      apply to_EOF_last. exact Hs.
    + destruct (IH _ _ _ _ _ Hrc1 H) as [post [Hpost Hrc']].
      exists (p ++ post). split.
      * eapply to_EOF_more; eassumption.
      * rewrite app_assoc. exact Hrc'.
Qed.

(** A copy to [ioutil.Discard] never returns [io.EOF] as its error. *)
Lemma io_Copy_Discard_error fuel :
  forall rc n k e rc',
    io_Copy_Discard E fuel rc n = Some (k, Some e, rc') -> is_EOF e = false.
Proof.
  induction fuel as [|fuel IH]; intros rc n k e rc' H;
    cbn [io_Copy_Discard] in H.
  - discriminate.
  - destruct (readCounter_Read E rc 8192) as [[p err] rc1].
    destruct err as [e0|].
    + destruct (is_EOF e0) eqn:He0; inversion H; subst. exact He0.
    + eapply IH. exact H.
Qed.

(** The function literal returns nil only after the extractor has
    returned nil and the rest of the stream has been read to EOF. *)
Lemma callback_success fuel root p rc' f f' :
  callback E fuel root (newReadCounter p newDigester) f
    = Some (None, rc', f') ->
  exists n rc1 pre post,
    archive_Apply E fuel (archive_init E root) f
      (newReadCounter p newDigester) = Some (n, None, rc1, f') /\
    stream_reads E (sp_stream p) pre (tee_r (r rc1)) /\
    reads_to_EOF E (tee_r (r rc1)) post (tee_r (r rc')) /\
    rc_tracks E (sp_stream p) (pre ++ post) rc'.
Proof.
  unfold callback. intros H.
  destruct (archive_Apply E fuel (archive_init E root) f _)
    as [[[[n err] rc1] f1]|] eqn:Ha; [|discriminate].
  destruct err as [e|]; [discriminate|].
  destruct (io_Copy_Discard E fuel rc1 0) as [[[k err] rc2]|] eqn:Hd;
    [|discriminate].
  inversion H; subst err rc2 f1. clear H.
  destruct (@archive_Apply_tracks _ _ _ _ _ _ _ _ _ _ (rc_tracks_new p) Ha)
    as [pre Hpre].
  cbn [app] in Hpre.
  destruct (@io_Copy_Discard_tracks _ _ _ _ _ _ _ Hpre Hd)
    as [post [Hpost Hrc']].
  exists n, rc1, pre, post. repeat split; try assumption.
  - apply Hpre.
  - apply Hrc'.
  - apply Hrc'.
  - apply Hrc'.
Qed.

(** [WithTempMount] returns nil only when the mount was acquired and the
    function it was handed returned nil. *)
Lemma WithTempMount_success {T : Type} mounts
    (f : string -> T -> FS -> option (option error * T * FS)) t w t' w' :
  WithTempMount E mounts f t w = Some (None, t', w') ->
  exists root f1 f2,
    mount_acquire E mounts (fs w) = (inl root, f1) /\
    f root t f1 = Some (None, t', f2).
Proof.
  unfold WithTempMount. intros H.
  destruct (mount_acquire E mounts (fs w)) as [[root|e] f1];
    [|discriminate].
  destruct (f root t f1) as [[[res t0] f2]|] eqn:Hf; [|discriminate].
  destruct (mount_release E root f2) as [u f3].
  destruct res as [e|]; [discriminate|].
  inversion H; subst. exists root, f1, f2. split; [reflexivity|exact Hf].
Qed.

(** The steps of a call that returned nil. *)
Lemma Apply_success_steps fuel desc mounts opts w d w' :
  Apply E fuel desc mounts opts w = Some (d, None, w') ->
  exists config ra p w1 rc' w2,
    apply_opts opts desc zeroConfig = inl config /\
    store_ReaderAt E desc = inl ra /\
    resolve E fuel (ProcessorPayloads config)
      (NewProcessorChain (MediaType desc) (content_NewReader E ra))
      (emit (EvReaderAt desc) w) = Some (inl p, w1) /\
    WithTempMount E mounts (callback E fuel)
      (newReadCounter p newDigester) w1 = Some (None, rc', w2) /\
    d = {| MediaType := MediaTypeImageLayer;
           Digest := digester_Digest E (tee_w (r rc'));
           Size := c rc';
           URLs := []; Annotations := []; Platform_ := None |}.
Proof.
  unfold Apply, Apply_body. intros H.
  destruct (apply_opts opts desc zeroConfig) as [config|e]; [|discriminate].
  destruct (store_ReaderAt E desc) as [ra|e]; [|discriminate].
  unfold Apply_resolve in H.
  destruct (resolve E fuel (ProcessorPayloads config) _ _)
    as [[[p|e] w1]|] eqn:Hr; [| discriminate | discriminate].
  unfold Apply_extract in H.
  destruct (WithTempMount E mounts (callback E fuel) _ w1)
    as [[[res rc'] w2]|] eqn:Hm; [|discriminate].
  destruct res as [e|]; [discriminate|].
  inversion H; subst. clear H.
  exists config, ra, p, w1, rc', w2. repeat split; assumption.
Qed.

(** *** What [Apply] reads of its descriptor and of the world

    The trace is written and never read (but by the clock), so a run from
    a world with the same filesystem takes the same steps. *)

Lemma resolve_same_fs fuel payloads :
  forall p w res w',
    resolve E fuel payloads p w = Some (res, w') ->
    forall wb : @World St RA FS,
    exists wb', resolve E fuel payloads p wb = Some (res, wb')
                /\ fs wb' = fs wb.
Proof.
  induction fuel as [|fuel IH]; intros p w res w' H wb; cbn in H |- *.
  - discriminate.
  - destruct (diff_GetProcessor E p payloads) as [p'|e].
    + destruct (sp_MediaType p' =? MediaTypeImageLayer)%string.
      * inversion H; subst. eexists. split; reflexivity.
      * destruct (IH _ _ _ _ H (emit (EvGetProcessor p) wb))
          as [wb' [Hwb Hfs]].
        exists wb'. split; [exact Hwb|exact Hfs].
    + inversion H; subst. eexists. split; reflexivity.
Qed.

Lemma WithTempMount_same_fs {T : Type} mounts
    (f : string -> T -> FS -> option (option error * T * FS)) t w res t' w' :
  WithTempMount E mounts f t w = Some (res, t', w') ->
  forall wb : @World St RA FS, fs wb = fs w ->
  exists wb', WithTempMount E mounts f t wb = Some (res, t', wb')
              /\ fs wb' = fs w'.
Proof.
  unfold WithTempMount. intros H wb Hwb. rewrite Hwb.
  destruct (mount_acquire E mounts (fs w)) as [[root|e] f1].
  - destruct (f root t f1) as [[[res0 t0] f2]|]; [|discriminate].
    destruct (mount_release E root f2) as [u f3].
    inversion H; subst. eexists. split; reflexivity.
  - inversion H; subst. eexists. split; reflexivity.
Qed.

Lemma Apply_extract_same_fs fuel mounts p w d err w' :
  Apply_extract E fuel mounts p w = Some (d, err, w') ->
  forall wb : @World St RA FS, fs wb = fs w ->
  exists wb', Apply_extract E fuel mounts p wb = Some (d, err, wb')
              /\ fs wb' = fs w'.
Proof.
  unfold Apply_extract. intros H wb Hwb.
  destruct (WithTempMount E mounts (callback E fuel) _ w)
    as [[[res rc'] w1]|] eqn:Hm; [|discriminate].
  destruct (WithTempMount_same_fs _ _ _ _ Hm wb Hwb) as [wb' [Hm' Hfs]].
  rewrite Hm'.
  destruct res; inversion H; subst; eexists; (split; [reflexivity|exact Hfs]).
Qed.

Lemma Apply_resolve_same_fs fuel desc mounts config ra w d err w' :
  Apply_resolve E fuel desc mounts config ra w = Some (d, err, w') ->
  forall desc2 (wb : @World St RA FS),
    MediaType desc2 = MediaType desc -> fs wb = fs w ->
    exists wb',
      Apply_resolve E fuel desc2 mounts config ra wb = Some (d, err, wb')
      /\ fs wb' = fs w'.
Proof.
  unfold Apply_resolve. intros H desc2 wb Hmt Hwb. rewrite Hmt.
  destruct (resolve E fuel (ProcessorPayloads config) _ w)
    as [[res w1]|] eqn:Hr; [|discriminate].
  destruct (resolve_same_fs _ _ _ _ Hr wb) as [wb1 [Hr' Hfs1]].
  rewrite Hr'.
  destruct (resolve_extends _ _ _ _ Hr) as [Hfs _].
  destruct res as [p|e].
  - destruct (Apply_extract E fuel mounts p w1)
      as [[[d0 err0] w2]|] eqn:Hx; [|discriminate].
    assert (Hw1 : fs wb1 = fs w1) by congruence.
    destruct (Apply_extract_same_fs _ _ _ _ Hx wb1 Hw1) as [wb2 [Hx' Hfs2]].
    rewrite Hx'. inversion H; subst.
    eexists. split; [reflexivity|exact Hfs2].
  - inversion H; subst. eexists. split; [reflexivity|congruence].
Qed.

Lemma Apply_body_same_fs fuel desc mounts opts w d err w' :
  Apply_body E fuel desc mounts opts w = Some (d, err, w') ->
  forall desc2,
    MediaType desc2 = MediaType desc ->
    apply_opts opts desc2 zeroConfig = apply_opts opts desc zeroConfig ->
    store_ReaderAt E desc2 = store_ReaderAt E desc ->
    exists w2,
      Apply_body E fuel desc2 mounts opts w = Some (d, err, w2)
      /\ fs w2 = fs w'.
Proof.
  unfold Apply_body. intros H desc2 Hmt Hopts Hstore.
  rewrite Hopts, Hstore.
  destruct (apply_opts opts desc zeroConfig) as [config|e].
  - destruct (store_ReaderAt E desc) as [ra|e].
    + destruct (Apply_resolve E fuel desc mounts config ra _)
        as [[[d0 err0] w1]|] eqn:Hr; [|discriminate].
      destruct (Apply_resolve_same_fs _ _ _ _ _ _ Hr desc2
                  (emit (EvReaderAt desc2) w) Hmt eq_refl)
        as [w2 [Hr' Hfs]].
      rewrite Hr'. inversion H; subst.
      eexists. split; [reflexivity|exact Hfs].
    + inversion H; subst. eexists. split; reflexivity.
  - inversion H; subst. eexists. split; reflexivity.
Qed.

(** C1.  When [Apply] returns nil, the descriptor it returns is built at
    the last [return] from three things only: the constant
    [MediaTypeImageLayer], the count [rc.c] of the Canonical Reader, and
    the digest of what was written to the digester's hash.  The reader was
    made over the stream of the resolved stage; the hash holds exactly the
    bytes that stream delivered, in order, and the count is their number
    (an [int64]).  No field of the descriptor the caller passed enters the
    result other than through the collaborators it is handed to: a
    descriptor with the same media type, for which the options and the
    store answer the same, gives the same result, whatever its digest,
    size and other fields. *)
Theorem C1_result_descriptor fuel desc mounts opts w d w' :
  Apply E fuel desc mounts opts w = Some (d, None, w') ->
  (exists config ra p w1 rc' w2 bytes,
     apply_opts opts desc zeroConfig = inl config /\
     store_ReaderAt E desc = inl ra /\
     resolve E fuel (ProcessorPayloads config)
       (NewProcessorChain (MediaType desc) (content_NewReader E ra))
       (emit (EvReaderAt desc) w) = Some (inl p, w1) /\
     WithTempMount E mounts (callback E fuel)
       (newReadCounter p newDigester) w1 = Some (None, rc', w2) /\
     stream_reads E (sp_stream p) bytes (tee_r (r rc')) /\
     tee_w (r rc') = bytes /\
     c rc' = wrap64 (Z.of_nat (List.length bytes)) /\
     d = {| MediaType := MediaTypeImageLayer;
            Digest := digester_Digest E (tee_w (r rc'));
            Size := c rc';
            URLs := []; Annotations := []; Platform_ := None |}) /\
  (forall desc2,
     MediaType desc2 = MediaType desc ->
     apply_opts opts desc2 zeroConfig = apply_opts opts desc zeroConfig ->
     store_ReaderAt E desc2 = store_ReaderAt E desc ->
     exists w2',
       Apply E fuel desc2 mounts opts w = Some (d, None, w2')
       /\ fs w2' = fs w').
Proof.
  intros H. split.
  - destruct (Apply_success_steps _ _ _ _ _ H)
      as (config & ra & p & w1 & rc' & w2 & Ho & Hs & Hr & Hm & Hd).
    destruct (WithTempMount_success _ _ _ _ Hm)
      as (root & f1 & f2 & _ & Hcb).
    destruct (callback_success _ _ _ _ Hcb)
      as (n & rc1 & pre & post & _ & _ & _ & Htr).
    destruct Htr as (Hreads & Hw & Hc).
    exists config, ra, p, w1, rc', w2, (pre ++ post).
    repeat split; assumption.
  - intros desc2 Hmt Hopts Hstore. unfold Apply in *.
    destruct (Apply_body E fuel desc mounts opts w)
      as [[[d0 err0] w1]|] eqn:Hb; [|discriminate].
    inversion H; subst d0 err0 w'. clear H.
    destruct (@Apply_body_same_fs _ _ _ _ _ _ _ _ Hb desc2 Hmt Hopts Hstore)
      as [w2 [Hb' Hfs]].
    rewrite Hb'. eexists. split; [reflexivity|].
    cbn. exact Hfs.
Qed.

(** *** The options *)

(** The options are applied from left to right, each to the
    configuration the one before left. *)
Lemma apply_opts_fold (opts : list ApplyOpt) desc :
  forall cfg0 cfg,
    apply_opts opts desc cfg0 = inl cfg ->
    cfg = fold_left (fun c0 o => fst (o desc c0)) opts cfg0.
Proof.
  induction opts as [|o opts IH]; intros cfg0 cfg H; cbn in H |- *.
  - inversion H. reflexivity.
  - destruct (o desc cfg0) as [cfg1 [e|]] eqn:Ho; [discriminate|].
    cbn [fst]. apply IH. exact H.
Qed.

(** The first option that fails ends the loop; the options after it are
    not run. *)
Lemma apply_opts_abort (pre post : list ApplyOpt) (o : ApplyOpt) desc :
  forall cfg0 cfg cfg' e,
    apply_opts pre desc cfg0 = inl cfg ->
    o desc cfg = (cfg', Some e) ->
    apply_opts (pre ++ o :: post) desc cfg0 = inr e.
Proof.
  induction pre as [|o1 pre IH]; intros cfg0 cfg cfg' e Hpre Ho;
    cbn in Hpre |- *.
  - inversion Hpre; subst. rewrite Ho. reflexivity.
  - destruct (o1 desc cfg0) as [cfg1 [e1|]]; [discriminate|].
    eapply IH; eassumption.
Qed.

(** C5.  [Apply] starts from the zero configuration and runs the options
    in the order given, each on the configuration left by those before it.
    When one returns an error, [Apply] returns at once with the zero
    descriptor and that error wrapped as "failed to apply config opt" (the
    configuration error of the specification): the later options are not
    run, the store is not asked for a reader and nothing else is done, so
    the world is the one the call started in; no round of any loop is
    needed for that. *)
Theorem C5_option_error_aborts fuel desc mounts
    (pre post : list ApplyOpt) (o : ApplyOpt) w cfg cfg' e :
  apply_opts pre desc zeroConfig = inl cfg ->
  o desc cfg = (cfg', Some e) ->
  cfg = fold_left (fun c0 o' => fst (o' desc c0)) pre zeroConfig /\
  Apply E fuel desc mounts (pre ++ o :: post) w
    = Some (emptyDesc, Some (Wrap e "failed to apply config opt"), w).
Proof.
  intros Hpre Ho. split.
  - apply apply_opts_fold. exact Hpre.
  - unfold Apply, Apply_body.
    erewrite apply_opts_abort; [reflexivity|eassumption|eassumption].
Qed.

(** *** The processor chain *)

(** C7.  When the options and the store succeed and [GetProcessor] has no
    decoder for the stream under the descriptor's media type, [Apply]
    returns the zero descriptor and that error wrapped as "failed to get
    stream processor for <media type>".  Between entry and return it has
    asked the store for the reader, called [GetProcessor] once and closed
    the reader: the mount is not acquired, the extractor is not run, the
    filesystem is as it was, and no log record is written. *)
Theorem C7_no_decoder_no_mutation fuel desc mounts opts w config ra e :
  apply_opts opts desc zeroConfig = inl config ->
  store_ReaderAt E desc = inl ra ->
  diff_GetProcessor E
    (NewProcessorChain (MediaType desc) (content_NewReader E ra))
    (ProcessorPayloads config) = inr e ->
  Apply E (S fuel) desc mounts opts w
    = Some (emptyDesc,
            Some (Wrap e ("failed to get stream processor for "
                          ++ MediaType desc)),
            {| fs := fs w;
               trace := trace w ++
                 [EvReaderAt desc;
                  EvGetProcessor
                    (NewProcessorChain (MediaType desc)
                       (content_NewReader E ra));
                  EvReaderAtClose ra (ra_Close E ra)] |}).
Proof.
  intros Hopts Hstore Hget.
  unfold Apply, Apply_body. rewrite Hopts, Hstore.
  unfold Apply_resolve. cbn [resolve]. rewrite Hget.
  unfold deferred_log, errors_Wrap, emit. cbn [fs trace].
  rewrite <- ?app_assoc. reflexivity.
Qed.

(** The loop has no bound of its own: over a set of labels that the
    registry maps into itself and that does not hold the canonical label,
    no number of rounds ends it. *)
Lemma resolve_diverges (S0 : string -> Prop) payloads :
  ~ S0 MediaTypeImageLayer ->
  (forall p, S0 (sp_MediaType p) ->
     exists p', diff_GetProcessor E p payloads = inl p'
                /\ S0 (sp_MediaType p')) ->
  forall fuel p (w : @World St RA FS),
    S0 (sp_MediaType p) -> resolve E fuel payloads p w = None.
Proof.
  intros Hcanon Hclosed.
  induction fuel as [|fuel IH]; intros p w Hp; cbn [resolve].
  - reflexivity.
  - destruct (Hclosed p Hp) as [p' [Hget Hp']]. rewrite Hget.
    destruct (sp_MediaType p' =? MediaTypeImageLayer)%string eqn:Heq.
    + apply String.eqb_eq in Heq. rewrite Heq in Hp'. contradiction.
    + apply IH. exact Hp'.
Qed.

Lemma Apply_blocked_in_resolve fuel desc mounts opts w config ra :
  apply_opts opts desc zeroConfig = inl config ->
  store_ReaderAt E desc = inl ra ->
  resolve E fuel (ProcessorPayloads config)
    (NewProcessorChain (MediaType desc) (content_NewReader E ra))
    (emit (EvReaderAt desc) w) = None ->
  Apply E fuel desc mounts opts w = None.
Proof.
  intros Hopts Hstore Hres.
  unfold Apply, Apply_body. rewrite Hopts, Hstore.
  unfold Apply_resolve. rewrite Hres. reflexivity.
Qed.

(** C3 (amended).  The loop ends only when [GetProcessor] fails or a stage
    reports the canonical label; it counts no rounds and remembers no
    label.  So when the registry maps a set of labels into itself (one
    label to itself, or a cycle) and the canonical label is not among
    them, resolution started on one of these labels has not ended after
    any number of rounds, and a call of [Apply] that reaches it never
    returns. *)
Theorem C3_label_cycle_never_ends (S0 : string -> Prop) desc mounts opts w
    config ra :
  ~ S0 MediaTypeImageLayer ->
  (forall p, S0 (sp_MediaType p) ->
     exists p', diff_GetProcessor E p (ProcessorPayloads config) = inl p'
                /\ S0 (sp_MediaType p')) ->
  S0 (MediaType desc) ->
  apply_opts opts desc zeroConfig = inl config ->
  store_ReaderAt E desc = inl ra ->
  forall fuel,
    resolve E fuel (ProcessorPayloads config)
      (NewProcessorChain (MediaType desc) (content_NewReader E ra))
      (emit (EvReaderAt desc) w) = None /\
    Apply E fuel desc mounts opts w = None.
Proof.
  intros Hcanon Hclosed Hdesc Hopts Hstore fuel.
  assert (Hres : resolve E fuel (ProcessorPayloads config)
            (NewProcessorChain (MediaType desc) (content_NewReader E ra))
            (emit (EvReaderAt desc) w) = None).
  { eapply resolve_diverges; eassumption. }
  split; [exact Hres|].
  eapply Apply_blocked_in_resolve; eassumption.
Qed.

(** What [Apply] comes to once the chain is resolved. *)
Lemma Apply_resolved fuel desc mounts opts w config ra p w1 :
  apply_opts opts desc zeroConfig = inl config ->
  store_ReaderAt E desc = inl ra ->
  resolve E fuel (ProcessorPayloads config)
    (NewProcessorChain (MediaType desc) (content_NewReader E ra))
    (emit (EvReaderAt desc) w) = Some (inl p, w1) ->
  Apply E fuel desc mounts opts w =
    match Apply_extract E fuel mounts p w1 with
    | None => None
    | Some (d, err, w2) =>
        Some (d, err,
              deferred_log E (time_Now E w) desc err
                (emit (EvReaderAtClose ra (ra_Close E ra))
                   (emit (EvProcessorClose p (processor_Close E p)) w2)))
    end.
Proof.
  intros Hopts Hstore Hres.
  unfold Apply, Apply_body. rewrite Hopts, Hstore.
  unfold Apply_resolve. rewrite Hres.
  destruct (Apply_extract E fuel mounts p w1) as [[[d err] w2]|];
    reflexivity.
Qed.

Lemma deferred_log_extends t1 desc err (w : @World St RA FS) :
  exists evs, extends w (deferred_log E t1 desc err w) evs
              /\ filter is_close evs = [].
Proof.
  destruct err as [e|]; cbn.
  - exists []. split; [|reflexivity].
    unfold extends. rewrite app_nil_r. reflexivity.
  - eexists. split; [apply extends_emit|reflexivity].
Qed.

(** C4 (amended).  [Apply] keeps one stage, the last one [GetProcessor]
    returned, and closes that one only.  On every return after the chain
    has been resolved (nil, a mount error, an extraction error, a drain
    error) the [Close] calls of the whole run are two, in this order: the
    resolved stage, then the store's reader, the reverse of the order in
    which they were acquired.  What [Apply] returns was settled before
    either ran, and their results are dropped, so a failing [Close]
    replaces no error. *)
Theorem C4_closes_after_resolution fuel desc mounts opts w config ra p w1
    d err w' :
  apply_opts opts desc zeroConfig = inl config ->
  store_ReaderAt E desc = inl ra ->
  resolve E fuel (ProcessorPayloads config)
    (NewProcessorChain (MediaType desc) (content_NewReader E ra))
    (emit (EvReaderAt desc) w) = Some (inl p, w1) ->
  Apply E fuel desc mounts opts w = Some (d, err, w') ->
  exists w2 evs,
    Apply_extract E fuel mounts p w1 = Some (d, err, w2) /\
    extends w w' evs /\
    filter is_close evs =
      [EvProcessorClose p (processor_Close E p);
       EvReaderAtClose ra (ra_Close E ra)].
Proof.
  intros Hopts Hstore Hres H.
  erewrite Apply_resolved in H by eassumption.
  destruct (Apply_extract E fuel mounts p w1) as [[[d0 err0] w2]|] eqn:Hx;
    [|discriminate].
  inversion H; subst d0 err0 w'. clear H.
  exists w2.
  pose proof Hres as Hargs. apply resolve_extends in Hargs.
  destruct Hargs as [_ [args Hargs]].
  pose proof Hx as Hevx. apply Apply_extract_extends in Hevx.
  destruct Hevx as [evx [Hevx [_ Hclx]]].
  match goal with
  | |- context [deferred_log E ?t ?de ?er ?wl] =>
      destruct (deferred_log_extends t de er wl) as [evl [Hevl Hcll]]
  end.
  eexists. split; [reflexivity|]. split.
  - eapply extends_trans; [|exact Hevl].
    eapply extends_trans; [|apply extends_emit].
    eapply extends_trans; [|apply extends_emit].
    eapply extends_trans; [|exact Hevx].
    eapply extends_trans; [apply extends_emit|exact Hargs].
  - rewrite !filter_app, Hclx, Hcll, filter_GetProcessor by reflexivity.
    reflexivity.
Qed.

(** *** The drain *)



(** *** The bound on the loops

    A call that returns within [fuel] rounds returns the same with any
    larger bound: the bound stands for the loops' being unbounded in the Go
    code and decides nothing else. *)

Lemma resolve_fuel_mono payloads fuel :
  forall fuel' p (w : @World St RA FS) out,
    fuel <= fuel' ->
    resolve E fuel payloads p w = Some out ->
    resolve E fuel' payloads p w = Some out.
Proof.
  induction fuel as [|fuel IH]; intros fuel' p w out Hle H;
    cbn [resolve] in H.
  - discriminate.
  - destruct fuel' as [|fuel']; [lia|]. cbn [resolve].
    destruct (diff_GetProcessor E p payloads) as [p'|e]; [|exact H].
    destruct (sp_MediaType p' =? MediaTypeImageLayer)%string; [exact H|].
    apply IH; [lia|exact H].
Qed.

Lemma archive_Apply_fuel_mono fuel :
  forall fuel' x f rc out,
    fuel <= fuel' ->
    archive_Apply E fuel x f rc = Some out ->
    archive_Apply E fuel' x f rc = Some out.
Proof.
  induction fuel as [|fuel IH]; intros fuel' x f rc out Hle H;
    cbn [archive_Apply] in H.
  - discriminate.
  - destruct fuel' as [|fuel']; [lia|]. cbn [archive_Apply].
    destruct (archive_step E x f) as [len k|f1 x1|n0 err0].
    + destruct (readCounter_Read E rc len) as [[p err] rc1].
      apply IH; [lia|exact H].
    + apply IH; [lia|exact H].
    + exact H.
Qed.

Lemma io_Copy_Discard_fuel_mono fuel :
  forall fuel' rc n out,
    fuel <= fuel' ->
    io_Copy_Discard E fuel rc n = Some out ->
    io_Copy_Discard E fuel' rc n = Some out.
Proof.
  induction fuel as [|fuel IH]; intros fuel' rc n out Hle H;
    cbn [io_Copy_Discard] in H.
  - discriminate.
  - destruct fuel' as [|fuel']; [lia|]. cbn [io_Copy_Discard].
    destruct (readCounter_Read E rc 8192) as [[p err] rc1].
    destruct err as [e|]; [exact H|].
    apply IH; [lia|exact H].
Qed.

Lemma callback_fuel_mono fuel fuel' root rc f out :
  fuel <= fuel' ->
  callback E fuel root rc f = Some out ->
  callback E fuel' root rc f = Some out.
Proof.
  unfold callback. intros Hle H.
  destruct (archive_Apply E fuel (archive_init E root) f rc)
    as [[[[n err] rc1] f1]|] eqn:Ha; [|discriminate].
  erewrite archive_Apply_fuel_mono by eassumption.
  destruct err as [e|]; [exact H|].
  destruct (io_Copy_Discard E fuel rc1 0) as [[[k err] rc2]|] eqn:Hd;
    [|discriminate].
  erewrite io_Copy_Discard_fuel_mono by eassumption. exact H.
Qed.

Lemma Apply_fuel_mono fuel fuel' desc mounts opts w out :
  fuel <= fuel' ->
  Apply E fuel desc mounts opts w = Some out ->
  Apply E fuel' desc mounts opts w = Some out.
Proof.
  unfold Apply, Apply_body. intros Hle H.
  destruct (apply_opts opts desc zeroConfig) as [config|e]; [|exact H].
  destruct (store_ReaderAt E desc) as [ra|e]; [|exact H].
  unfold Apply_resolve in *.
  destruct (resolve E fuel (ProcessorPayloads config) _ _)
    as [[res w1]|] eqn:Hr; [|discriminate].
  erewrite resolve_fuel_mono by eassumption.
  destruct res as [p|e]; [|exact H].
  unfold Apply_extract, WithTempMount in *. cbv zeta in *.
  destruct (mount_acquire E mounts (fs w1)) as [[root|e] f1]; [|exact H].
  destruct (callback E fuel root (newReadCounter p newDigester) f1)
    as [[[res rc'] f2]|] eqn:Hc; [|discriminate].
  erewrite callback_fuel_mono by eassumption. exact H.
Qed.

End ApplyFacts.

Section AuthFacts.

Import Auth.
Variable net : Net.

(** The test the code writes, [StatusCode < 200 || StatusCode >= 400], is
    the complement of the window from 200 up to and not including 400. *)
Lemma unexpected_status_window (resp : Response) :
  unexpected_status resp =
    negb ((200 <=? resp_StatusCode resp)%Z && (resp_StatusCode resp <? 400)%Z).
Proof.
  unfold unexpected_status.
  destruct (Z.ltb_spec (resp_StatusCode resp) 200),
           (Z.leb_spec 200 (resp_StatusCode resp)),
           (Z.ltb_spec (resp_StatusCode resp) 400),
           (Z.geb_spec (resp_StatusCode resp) 400);
    cbn; try reflexivity; lia.
Qed.

(** C10.  Once the request is built and answered (with a body, as the HTTP
    client promises), [FetchTokenWithOAuth] and [FetchToken] go by the
    status code alone.  From 200 up to and not including 400, the 3xx
    codes included, the body is decoded as a token response and the result
    is what the decoding gives.  Below 200 and from 400 on, they return an
    empty token and [ErrUnexpectedStatus] (with a stack) that carries the
    status, the status code and the first 64000 bytes of the body at
    most. *)
Theorem C10_status_window headers clientID to :
  (forall req resp body,
     oauthRequest net headers clientID to = inl req ->
     ctxhttp_Do net req = inl resp ->
     resp_Body resp = Some body ->
     FetchTokenWithOAuth net headers clientID to =
       if ((200 <=? resp_StatusCode resp)%Z
           && (resp_StatusCode resp <? 400)%Z)
       then
         match json_Decode_post net body with
         | inr err =>
             Returns ""
               (Some (ErrNew ("unable to decode token response: "
                              ++ Error err)))
         | inl tr => Returns (post_AccessToken tr) None
         end
       else
         Returns ""
           (Some (WithStack
                    (ErrUnexpectedStatus (resp_Status resp)
                       (resp_StatusCode resp)
                       (firstn 64000 (body_bytes body)))))) /\
  (forall req resp body,
     getRequest net headers to = inl req ->
     ctxhttp_Do net req = inl resp ->
     resp_Body resp = Some body ->
     FetchToken net headers to =
       if ((200 <=? resp_StatusCode resp)%Z
           && (resp_StatusCode resp <? 400)%Z)
       then
         match json_Decode_get net body with
         | inr err =>
             Returns ""
               (Some (ErrNew ("unable to decode token response: "
                              ++ Error err)))
         | inl tr => tokenOf tr
         end
       else
         Returns ""
           (Some (WithStack
                    (ErrUnexpectedStatus (resp_Status resp)
                       (resp_StatusCode resp)
                       (firstn 64000 (body_bytes body)))))) /\
  (forall resp,
     exists b,
       newUnexpectedStatusErr resp =
         ErrUnexpectedStatus (resp_Status resp) (resp_StatusCode resp) b
       /\ (List.length b <= 64000)%nat).
Proof.
  split; [|split].
  - intros req resp body Hreq Hdo Hbody.
    unfold FetchTokenWithOAuth. rewrite Hreq, Hdo, Hbody.
    rewrite unexpected_status_window.
    destruct ((200 <=? resp_StatusCode resp)%Z
              && (resp_StatusCode resp <? 400)%Z); cbn [negb].
    + reflexivity.
    + unfold newUnexpectedStatusErr, ReadAll_Limit. rewrite Hbody.
      reflexivity.
  - intros req resp body Hreq Hdo Hbody.
    unfold FetchToken. rewrite Hreq, Hdo, Hbody.
    rewrite unexpected_status_window.
    destruct ((200 <=? resp_StatusCode resp)%Z
              && (resp_StatusCode resp <? 400)%Z); cbn [negb].
    + reflexivity.
    + unfold newUnexpectedStatusErr, ReadAll_Limit. rewrite Hbody.
      reflexivity.
  - intros resp. unfold newUnexpectedStatusErr, ReadAll_Limit.
    eexists. split; [reflexivity|].
    destruct (resp_Body resp) as [body|].
    + apply firstn_le_length.
    + apply Nat.le_0_l.
Qed.

End AuthFacts.

(** * The statements on the concrete instance *)

Section OnTheInstance.

(** The label [Demo.loopLayer] is registered to a stage that reports
    [Demo.loopLayer]. *)
Lemma demo_loop_closed (payloads : list (string * Any)) :
  forall p : @StreamProcessor Demo.St,
    sp_MediaType p = Demo.loopLayer ->
    exists p', DiffApply.diff_GetProcessor Demo.E p payloads = inl p'
               /\ sp_MediaType p' = Demo.loopLayer.
Proof.
  intros p Hp. cbn [DiffApply.diff_GetProcessor Demo.E].
  unfold Demo.diff_GetProcessor. rewrite Hp.
  eexists. split; reflexivity.
Qed.

Lemma demo_loop_not_canonical : MediaTypeImageLayer <> Demo.loopLayer.
Proof. discriminate. Qed.

(** C1 on the instance: the gzip Demo.blob applies to the descriptor of its
    Demo.canonical form, and a descriptor that differs in size and annotations
    gives the same. *)
Lemma C1_witness :
  exists d w',
    Apply Demo.E 5 Demo.descGzip [] [] Demo.w0 = Some (d, None, w') /\
    d = {| MediaType := MediaTypeImageLayer;
           Digest := "sha256:hello, layer"; Size := 12;
           URLs := []; Annotations := []; Platform_ := None |} /\
    exists w2',
      Apply Demo.E 5
        {| MediaType := Demo.gzipLayer; Digest := "sha256:aa"; Size := 0;
           URLs := ["https://mirror.test/aa"];
           Annotations := [("k", "v")]; Platform_ := None |}
        [] [] Demo.w0 = Some (d, None, w2')
      /\ fs w2' = fs w'.
Proof.
  do 2 eexists.
  match goal with
  | |- ?A /\ _ => assert (H : A) by (vm_compute; reflexivity)
  end.
  split; [exact H|]. split; [reflexivity|].
  apply (proj2 (C1_result_descriptor Demo.E 5 Demo.descGzip [] [] Demo.w0 H));
    reflexivity.
Defined.

(** C3 on the instance: the self-registered label. *)
Lemma C3_witness :
  resolve Demo.E 9 (ProcessorPayloads zeroConfig)
    (NewProcessorChain (MediaType Demo.descLoop) (Demo.blob, EOF))
    (emit (EvReaderAt Demo.descLoop) Demo.w0) = None /\
  Apply Demo.E 9 Demo.descLoop [] [] Demo.w0 = None.
Proof.
  apply (@C3_label_cycle_never_ends _ _ _ _ Demo.E
           (fun l => l = Demo.loopLayer) Demo.descLoop [] [] Demo.w0 zeroConfig (Demo.blob, EOF)).
  - exact demo_loop_not_canonical.
  - apply demo_loop_closed.
  - reflexivity.
  - reflexivity.
  - reflexivity.
Defined.

(** C3 as it was claimed fails on the instance: with a label registered
    to itself the call does not end in an error; it does not end. *)
Lemma C3_counterexample :
  ~ exists fuel out, Apply Demo.E fuel Demo.descLoop [] [] Demo.w0 = Some out.
Proof.
  intros [fuel [out H]].
  rewrite (@Apply_blocked_in_resolve _ _ _ _ Demo.E fuel Demo.descLoop [] [] Demo.w0
             zeroConfig (Demo.blob, EOF) eq_refl eq_refl) in H.
  - discriminate.
  - eapply resolve_diverges with (S0 := fun l => l = Demo.loopLayer).
    + exact demo_loop_not_canonical.
    + apply demo_loop_closed.
    + reflexivity.
Qed.

(** C4 as it was claimed fails on the instance: the chain of [Demo.descEnc]
    acquires [Demo.stage1] and then [Demo.stage2]; the call returns nil having
    closed [Demo.stage2] and the reader, and [Demo.stage1] never. *)
Lemma C4_counterexample :
  DiffApply.diff_GetProcessor Demo.E Demo.stage0 [] = inl Demo.stage1 /\
  DiffApply.diff_GetProcessor Demo.E Demo.stage1 [] = inl Demo.stage2 /\
  exists d w',
    Apply Demo.E 5 Demo.descEnc [] [] Demo.w0 = Some (d, None, w') /\
    filter is_close (trace w') =
      [EvProcessorClose Demo.stage2 (Some (ErrNew "close failed"));
       EvReaderAtClose (Demo.blob, EOF) None] /\
    forall res, ~ In (EvProcessorClose Demo.stage1 res) (trace w').
Proof.
  split; [reflexivity|]. split; [reflexivity|].
  do 2 eexists. split; [vm_compute; reflexivity|].
  split; [reflexivity|].
  cbn [trace]. intros res Hin.
  repeat (destruct Hin as [Hin|Hin]; [discriminate Hin|]).
  exact Hin.
Qed.

(** C4 on the instance: the two [Close] calls of the run of [Demo.descEnc];
    the stage's [Close] fails and the call returns nil all the same. *)
Lemma C4_witness :
  exists d err w' evs,
    Apply Demo.E 5 Demo.descEnc [] [] Demo.w0 = Some (d, err, w') /\
    err = None /\
    extends Demo.w0 w' evs /\
    filter is_close evs =
      [EvProcessorClose Demo.stage2 (Some (ErrNew "close failed"));
       EvReaderAtClose (Demo.blob, EOF) None].
Proof.
  assert (Hres : resolve Demo.E 5 (ProcessorPayloads zeroConfig)
            (NewProcessorChain (MediaType Demo.descEnc)
               (content_NewReader Demo.E (Demo.blob, EOF)))
            (emit (EvReaderAt Demo.descEnc) Demo.w0)
          = Some (inl Demo.stage2,
                  {| fs := [];
                     trace := [EvReaderAt Demo.descEnc; EvGetProcessor Demo.stage0;
                               EvGetProcessor Demo.stage1] |}))
    by (vm_compute; reflexivity).
  destruct (Apply Demo.E 5 Demo.descEnc [] [] Demo.w0) as [[[d err] w']|] eqn:H;
    [|vm_compute in H; discriminate H].
  destruct (@C4_closes_after_resolution _ _ _ _ Demo.E 5 Demo.descEnc [] [] Demo.w0
              zeroConfig (Demo.blob, EOF) Demo.stage2 _ d err w'
              eq_refl eq_refl Hres H)
    as (w2 & evs & Hx & Hext & Hcl).
  exists d, err, w', evs. split; [reflexivity|].
  split; [|split; [exact Hext|exact Hcl]].
  vm_compute in H. congruence.
Defined.

(** C5 on the instance: the second of three options fails, before any
    round of any loop. *)
Lemma C5_witness :
  {| ProcessorPayloads := [("k", {| TypeUrl := "t"; Value := [] |})] |}
    = fold_left (fun c0 (o' : ApplyOpt) => fst (o' Demo.descGzip c0))
        [Demo.optPayload] zeroConfig /\
  Apply Demo.E 0 Demo.descGzip []
    ([Demo.optPayload] ++ Demo.optBad :: [Demo.optPayload]) Demo.w0
    = Some (emptyDesc,
            Some (Wrap (ErrNew "bad payload") "failed to apply config opt"),
            Demo.w0).
Proof.
  apply (@C5_option_error_aborts _ _ _ _ Demo.E 0 Demo.descGzip []
           [Demo.optPayload] [Demo.optPayload] Demo.optBad Demo.w0
           {| ProcessorPayloads := [("k", {| TypeUrl := "t"; Value := [] |})] |}
           {| ProcessorPayloads := [("k", {| TypeUrl := "t"; Value := [] |})] |}
           (ErrNew "bad payload")).
  - reflexivity.
  - reflexivity.
Defined.


(** C7 on the instance: a media type nothing is registered for. *)
Lemma C7_witness :
  Apply Demo.E 1 Demo.descUnknown [] [] Demo.w0
    = Some (emptyDesc,
            Some (Wrap (ErrNew "no processor for content stream")
                    "failed to get stream processor for text/plain"),
            {| fs := [];
               trace :=
                 [EvReaderAt Demo.descUnknown;
                  EvGetProcessor
                    {| sp_MediaType := "text/plain";
                       sp_stream := (Demo.blob, EOF) |};
                  EvReaderAtClose (Demo.blob, EOF) None] |}).
Proof.
  apply (@C7_no_decoder_no_mutation _ _ _ _ Demo.E 0 Demo.descUnknown
           [] [] Demo.w0 zeroConfig (Demo.blob, EOF)
           (ErrNew "no processor for content stream")).
  - reflexivity.
  - reflexivity.
  - reflexivity.
Defined.

(** C8 on the instance: the run of [descGzip] returns nil and its last
    event is the log record, with the descriptor the caller passed. *)
Lemma C8_witness :
  exists d w',
    Apply Demo.E 5 Demo.descGzip [] [] Demo.w0 = Some (d, None, w') /\
    exists evs,
      filter is_log evs = [] /\
      trace w' = trace Demo.w0 ++ evs ++
        [EvLog (time_Now Demo.E
                  {| fs := fs w'; trace := trace Demo.w0 ++ evs |}
                - time_Now Demo.E Demo.w0)
           "sha256:aa" 13 Demo.gzipLayer].
Proof.
  do 2 eexists.
  match goal with
  | |- ?A /\ _ => assert (H : A) by (vm_compute; reflexivity)
  end.
  split; [exact H|].
  exact (C8_log_record_iff_success Demo.E 5 Demo.descGzip [] [] Demo.w0 H).
Defined.

(** C9 on the instance: the stream of [descTruncated] breaks off during
    the drain. *)
Lemma C9_witness :
  exists d e w',
    Apply Demo.E 5 Demo.descTruncated [] [] Demo.w0 = Some (d, Some e, w') /\
    d = emptyDesc /\ MediaType d = "" /\ Size d = 0%Z /\ Digest d = "".
Proof.
  do 3 eexists.
  match goal with
  | |- ?A /\ _ => assert (H : A) by (vm_compute; reflexivity)
  end.
  split; [exact H|].
  exact (C9_error_returns_emptyDesc Demo.E 5 Demo.descTruncated [] []
           Demo.w0 H).
Defined.

(** C10 on the instance: a 302 answer is decoded, a 401 answer is an
    [ErrUnexpectedStatus] with its body. *)
Lemma C10_witness :
  Auth.FetchToken AuthDemo.net None (AuthDemo.toOf "https://auth.test/moved")
    = Auth.Returns "tok-302" None /\
  Auth.FetchTokenWithOAuth AuthDemo.net None "cid"
    (AuthDemo.toOf "https://auth.test/denied")
    = Auth.Returns ""
        (Some (Auth.WithStack
                 (Auth.ErrUnexpectedStatus "401 Unauthorized" 401
                    (list_byte_of_string "denied")))).
Proof.
  split.
  - rewrite (proj1 (proj2 (C10_status_window AuthDemo.net None "cid"
                             (AuthDemo.toOf "https://auth.test/moved")))
               _ _ _ eq_refl eq_refl eq_refl).
    reflexivity.
  - rewrite (proj1 (C10_status_window AuthDemo.net None "cid"
                      (AuthDemo.toOf "https://auth.test/denied"))
               _ _ _ eq_refl eq_refl eq_refl).
    reflexivity.
Defined.

End OnTheInstance.

(** * Further properties of [Apply] *)

Section MoreApplyFacts.

Context {St RA X FS : Type}.
Variable E : @Collaborators St RA X FS.

Lemma filter_is_close_ra (evs : list (@Event St RA)) :
  filter is_close evs = [] -> filter is_ra_close evs = [].
Proof.
  induction evs as [|ev evs IH]; cbn; [reflexivity|].
  destruct ev; cbn; try discriminate; exact IH.
Qed.

(** X1.  The error [Apply] returns tells the step that failed.  An option's
    error comes wrapped as "failed to apply config opt", with the world as
    it was.  The store's error comes wrapped as "failed to get reader from
    content store", after the one call of [ReaderAt].  An error of
    [GetProcessor], in whichever round of the loop, comes wrapped as "failed
    to get stream processor for" and the media type of the descriptor the
    caller passed (not the label of the stage that had no decoder); the
    filesystem is as it was and the trace holds the call of [ReaderAt], the
    calls of [GetProcessor] and the reader's [Close].  Any other error is the
    one [WithTempMount] returned, unwrapped. *)
Theorem X1_error_tells_the_step fuel desc mounts opts w d err w' :
  Apply E fuel desc mounts opts w = Some (d, Some err, w') ->
  (exists e,
     apply_opts opts desc zeroConfig = inr e /\
     err = Wrap e "failed to apply config opt" /\ w' = w) \/
  (exists config e,
     apply_opts opts desc zeroConfig = inl config /\
     store_ReaderAt E desc = inr e /\
     err = Wrap e "failed to get reader from content store" /\
     w' = emit (EvReaderAt desc) w) \/
  (exists config ra e w1 args,
     apply_opts opts desc zeroConfig = inl config /\
     store_ReaderAt E desc = inl ra /\
     resolve E fuel (ProcessorPayloads config)
       (NewProcessorChain (MediaType desc) (content_NewReader E ra))
       (emit (EvReaderAt desc) w) = Some (inr e, w1) /\
     err = Wrap e ("failed to get stream processor for " ++ MediaType desc) /\
     fs w' = fs w /\
     trace w' = trace w ++ EvReaderAt desc :: map (@EvGetProcessor St RA) args
                  ++ [EvReaderAtClose ra (ra_Close E ra)]) \/
  (exists config ra p w1 rc' w2,
     apply_opts opts desc zeroConfig = inl config /\
     store_ReaderAt E desc = inl ra /\
     resolve E fuel (ProcessorPayloads config)
       (NewProcessorChain (MediaType desc) (content_NewReader E ra))
       (emit (EvReaderAt desc) w) = Some (inl p, w1) /\
     WithTempMount E mounts (callback E fuel)
       (newReadCounter p newDigester) w1 = Some (Some err, rc', w2)).
Proof.
  unfold Apply, Apply_body. intros H.
  destruct (apply_opts opts desc zeroConfig) as [config|e0].
  - destruct (store_ReaderAt E desc) as [ra|e0].
    + right. right. unfold Apply_resolve in H.
      destruct (resolve E fuel (ProcessorPayloads config) _ _)
        as [[[p|e0] w1]|] eqn:Hr; [| |discriminate].
      * right. unfold Apply_extract in H. cbv zeta in H.
        destruct (WithTempMount E mounts (callback E fuel) _ w1)
          as [[[res rc'] w2]|] eqn:Hm; [|discriminate].
        destruct res as [e0|]; [|discriminate].
        inversion H; subst. clear H.
        exists config, ra, p, w1, rc', w2. repeat split; assumption.
      * left. unfold errors_Wrap in H. inversion H; subst. clear H.
        pose proof Hr as Hext. apply resolve_extends in Hext.
        destruct Hext as [Hfs [args Hargs]].
        exists config, ra, e0, w1, args.
        split; [reflexivity|]. split; [reflexivity|].
        split; [exact Hr|]. split; [reflexivity|]. split.
        -- cbn [deferred_log emit fs]. exact Hfs.
        -- cbn [deferred_log emit trace]. unfold extends in Hargs.
           rewrite Hargs. cbn [emit trace].
           rewrite <- !app_assoc. reflexivity.
    + right. left. unfold errors_Wrap in H. inversion H; subst.
      exists config, e0. repeat split.
  - left. unfold errors_Wrap in H. inversion H; subst.
    exists e0. repeat split.
Qed.

(** The copy to [ioutil.Discard] keeps the reader on track whatever it
    returns. *)
Lemma io_Copy_Discard_keeps_track s0 fuel :
  forall rc bytes n k err rc',
    rc_tracks E s0 bytes rc ->
    io_Copy_Discard E fuel rc n = Some (k, err, rc') ->
    exists post, rc_tracks E s0 (bytes ++ post) rc'.
Proof.
  induction fuel as [|fuel IH]; intros rc bytes n k err rc' Hrc H;
    cbn [io_Copy_Discard] in H.
  - discriminate.
  - destruct (readCounter_Read E rc 8192) as [[p e] rc1] eqn:Hread.
    destruct (@readCounter_Read_tracks _ _ _ _ E _ _ _ _ _ _ _ Hrc Hread)
      as [_ Hrc1].
    destruct e as [e|].
    + exists p. destruct (is_EOF e); inversion H; subst; exact Hrc1.
    + destruct (IH _ _ _ _ _ _ Hrc1 H) as [post Hpost].
      exists (p ++ post). rewrite app_assoc. exact Hpost.
Qed.

(** X4.  However the function handed to [WithTempMount] ends (the
    extractor failed, the drain failed, or both returned nil), the Canonical
    Reader it leaves is consistent: its hash holds exactly the bytes that
    were read off the resolved stage's stream, in order, and its count is
    their number (as an [int64]). *)
Theorem X4_reader_consistent_on_every_outcome fuel root p f res rc' f' :
  callback E fuel root (newReadCounter p newDigester) f = Some (res, rc', f') ->
  stream_reads E (sp_stream p) (tee_w (r rc')) (tee_r (r rc')) /\
  c rc' = wrap64 (Z.of_nat (List.length (tee_w (r rc')))).
Proof.
  unfold callback. intros H.
  destruct (archive_Apply E fuel (archive_init E root) f _)
    as [[[[n err] rc1] f1]|] eqn:Ha; [|discriminate].
  destruct (@archive_Apply_tracks _ _ _ _ E _ _ _ _ _ _ _ _ _ _
              (rc_tracks_new E p) Ha) as [pre Hpre].
  cbn [app] in Hpre.
  destruct err as [e|].
  - inversion H; subst. destruct Hpre as (Hreads & Hw & Hc).
    rewrite Hw. split; [exact Hreads|exact Hc].
  - destruct (io_Copy_Discard E fuel rc1 0) as [[[k err] rc2]|] eqn:Hd;
      [|discriminate].
    inversion H; subst.
    destruct (@io_Copy_Discard_keeps_track _ _ _ _ _ _ _ _ Hpre Hd)
      as [post (Hreads & Hw & Hc)].
    rewrite Hw. split; [exact Hreads|exact Hc].
Qed.

(** X2.  When the extractor returns an error, the function handed to
    [WithTempMount] returns it at once: the rest of the stream is not read
    (the Canonical Reader stays as the extractor left it), [Apply] fails
    with the zero descriptor, and what the extractor had written before it
    failed is not undone: the filesystem the call leaves is the one the
    extractor left, after the release of the mount. *)
Theorem X2_extraction_error_skips_the_drain fuel desc mounts opts w config ra
    p w1 root f1 n e rc1 f2 :
  apply_opts opts desc zeroConfig = inl config ->
  store_ReaderAt E desc = inl ra ->
  resolve E fuel (ProcessorPayloads config)
    (NewProcessorChain (MediaType desc) (content_NewReader E ra))
    (emit (EvReaderAt desc) w) = Some (inl p, w1) ->
  mount_acquire E mounts (fs w1) = (inl root, f1) ->
  archive_Apply E fuel (archive_init E root) f1
    (newReadCounter p newDigester) = Some (n, Some e, rc1, f2) ->
  callback E fuel root (newReadCounter p newDigester) f1
    = Some (Some e, rc1, f2) /\
  exists e' w',
    Apply E fuel desc mounts opts w = Some (emptyDesc, Some e', w') /\
    fs w' = snd (mount_release E root f2).
Proof.
  intros Hopts Hstore Hres Hacq Harch.
  assert (Hcb : callback E fuel root (newReadCounter p newDigester) f1
                = Some (Some e, rc1, f2)).
  { unfold callback. rewrite Harch. reflexivity. }
  split; [exact Hcb|].
  erewrite Apply_resolved by eassumption.
  unfold Apply_extract, WithTempMount. cbv zeta. rewrite Hacq, Hcb.
  destruct (mount_release E root f2) as [u f3].
  do 2 eexists. split; reflexivity.
Qed.

Lemma Apply_resolve_no_ra_close fuel desc mounts config ra w d err w' :
  Apply_resolve E fuel desc mounts config ra w = Some (d, err, w') ->
  exists evs, extends w w' evs /\ filter is_ra_close evs = [].
Proof.
  unfold Apply_resolve. intros H.
  destruct (resolve E fuel (ProcessorPayloads config) _ w)
    as [[[p|e] w1]|] eqn:Hr; [| |discriminate].
  - destruct (Apply_extract E fuel mounts p w1)
      as [[[d0 err0] w2]|] eqn:Hx; [|discriminate].
    inversion H; subst.
    apply resolve_extends in Hr. destruct Hr as [_ [args Hargs]].
    apply Apply_extract_extends in Hx. destruct Hx as [evs [Hevs [_ Hcl]]].
    eexists. split.
    + eapply extends_trans; [eapply extends_trans; eassumption|].
      apply extends_emit.
    + rewrite !filter_app, (filter_is_close_ra _ Hcl),
        filter_GetProcessor by reflexivity.
      reflexivity.
  - inversion H; subst.
    apply resolve_extends in Hr. destruct Hr as [_ [args Hargs]].
    eexists. split; [exact Hargs|].
    apply filter_GetProcessor. reflexivity.
Qed.

(** X3.  The reader the store returned is closed exactly once on every
    return of [Apply], whatever happened after it was acquired (no decoder,
    a mount error, an extraction or drain error, success); when the options
    or the store failed there is no reader and no [Close]. *)
Theorem X3_store_reader_closed_exactly_once fuel desc mounts opts w d err w' :
  Apply E fuel desc mounts opts w = Some (d, err, w') ->
  exists evs,
    extends w w' evs /\
    filter is_ra_close evs =
      match apply_opts opts desc zeroConfig, store_ReaderAt E desc with
      | inl _, inl ra => [EvReaderAtClose ra (ra_Close E ra)]
      | _, _ => []
      end.
Proof.
  unfold Apply, Apply_body. intros H.
  destruct (apply_opts opts desc zeroConfig) as [config|e].
  - destruct (store_ReaderAt E desc) as [ra|e].
    + destruct (Apply_resolve E fuel desc mounts config ra _)
        as [[[d0 err0] w1]|] eqn:Hr; [|discriminate].
      inversion H; subst. clear H.
      apply Apply_resolve_no_ra_close in Hr.
      destruct Hr as [evs [Hevs Hra]].
      match goal with
      | |- context [deferred_log E ?t ?de ?er ?wl] =>
          destruct (deferred_log_extends E t de er wl) as [evl [Hevl Hcll]]
      end.
      eexists. split.
      * eapply extends_trans; [|exact Hevl].
        eapply extends_trans; [|apply extends_emit].
        eapply extends_trans; [apply extends_emit|exact Hevs].
      * rewrite !filter_app, Hra, (filter_is_close_ra _ Hcll). reflexivity.
    + inversion H; subst. exists [EvReaderAt desc]. split; reflexivity.
  - inversion H; subst. exists []. split; [|reflexivity].
    unfold extends. cbn. rewrite app_nil_r. reflexivity.
Qed.

(** X13.  The loop over [GetProcessor] hands on a stage exactly when the
    chain of stages, started on the raw stream under the descriptor's label,
    reaches a stage that reports the canonical label; it stops at the first
    such stage, after one call per stage and at least one call (a stream
    already under the canonical label still goes through [GetProcessor]
    once); it calls nothing else and leaves the filesystem alone.  A chain
    of [n] calls is resolved by any bound of [n] rounds or more. *)
Theorem X13_resolve_follows_the_chain fuel payloads p w p' w1 :
  resolve E fuel payloads p w = Some (inl p', w1) <->
  exists calls,
    resolves_to E payloads p calls p' /\
    1 <= List.length calls <= fuel /\
    w1 = {| fs := fs w;
            trace := trace w ++ map (@EvGetProcessor St RA) calls |}.
Proof.
  split.
  - revert p w. induction fuel as [|fuel IH]; intros p w H; cbn [resolve] in H.
    + discriminate.
    + destruct (diff_GetProcessor E p payloads) as [q|e] eqn:Hget;
        [|discriminate].
      destruct (sp_MediaType q =? MediaTypeImageLayer)%string eqn:Hq.
      * inversion H; subst. exists [p]. split; [|split].
        -- apply resolves_last; [exact Hget|]. apply String.eqb_eq. exact Hq.
        -- cbn. lia.
        -- reflexivity.
      * apply IH in H. destruct H as (calls & Hchain & Hlen & Hw).
        exists (p :: calls). split; [|split].
        -- apply resolves_step with (q := q); [exact Hget| |exact Hchain].
           apply String.eqb_neq. exact Hq.
        -- cbn [List.length]. lia.
        -- rewrite Hw. cbn [emit fs trace map].
           rewrite <- app_assoc. reflexivity.
  - intros (calls & Hchain & Hlen & Hw). subst w1.
    revert fuel w Hlen.
    induction Hchain as [p p' Hget Hp'|p q p' calls Hget Hq Hchain IH];
      intros fuel w Hlen.
    + destruct fuel as [|fuel]; [cbn in Hlen; lia|]. cbn [resolve].
      rewrite Hget. apply String.eqb_eq in Hp'. rewrite Hp'. reflexivity.
    + destruct fuel as [|fuel]; [cbn in Hlen; lia|]. cbn [resolve].
      rewrite Hget. apply String.eqb_neq in Hq. rewrite Hq.
      rewrite IH.
      * cbn [emit fs trace map]. rewrite <- app_assoc. reflexivity.
      * cbn [List.length] in Hlen.
        assert (1 <= List.length calls).
        { inversion Hchain; cbn; lia. }
        lia.
Qed.

End MoreApplyFacts.

(** * Further properties of the token fetcher *)

Section MoreAuthFacts.

Import Auth.

(** *** [url.Values] and [http.Header] *)

Lemma Values_Get_put_same (m : Values) (k : string) (v : list string) :
  Values_Get (Values_put m k v) k = v.
Proof.
  induction m as [|[k' v'] m IH]; cbn.
  - rewrite String.eqb_refl. reflexivity.
  - destruct (k' =? k)%string eqn:Hk; cbn.
    + rewrite String.eqb_refl. reflexivity.
    + rewrite Hk. exact IH.
Qed.

Lemma Values_Get_put_other (m : Values) (k k0 : string) (v : list string) :
  k <> k0 -> Values_Get (Values_put m k v) k0 = Values_Get m k0.
Proof.
  intros Hne. induction m as [|[k' v'] m IH]; cbn.
  - apply String.eqb_neq in Hne. rewrite Hne. reflexivity.
  - destruct (k' =? k)%string eqn:Hk; cbn.
    + apply String.eqb_eq in Hk. subst k'.
      apply String.eqb_neq in Hne. rewrite Hne. reflexivity.
    + destruct (k' =? k0)%string; [reflexivity|exact IH].
Qed.

Lemma Values_Get_absent (m : Values) (k : string) :
  ~ In k (map fst m) -> Values_Get m k = [].
Proof.
  induction m as [|[k' v'] m IH]; cbn; intros Hnin.
  - reflexivity.
  - destruct (k' =? k)%string eqn:Hk.
    + apply String.eqb_eq in Hk. exfalso. apply Hnin. left. exact Hk.
    + apply IH. intros Hin. apply Hnin. right. exact Hin.
Qed.

Lemma Values_Get_Add_same (m : Values) (k v : string) :
  Values_Get (Values_Add m k v) k = Values_Get m k ++ [v].
Proof. unfold Values_Add. apply Values_Get_put_same. Qed.

Lemma Values_Get_Add_other (m : Values) (k k0 v : string) :
  k <> k0 -> Values_Get (Values_Add m k v) k0 = Values_Get m k0.
Proof. unfold Values_Add. apply Values_Get_put_other. Qed.

(** The loop over the caller's headers appends, key by key. *)
Lemma Header_merge_Get (hs : Values) :
  NoDup (map fst hs) ->
  forall (h : Values) (k : string),
    Values_Get (Header_merge h hs) k = Values_Get h k ++ Values_Get hs k.
Proof.
  induction hs as [|[k' v] hs IH]; intros Hnd h k; cbn.
  - rewrite app_nil_r. reflexivity.
  - inversion Hnd as [|? ? Hnin Hnd']; subst.
    rewrite (IH Hnd').
    destruct (k' =? k)%string eqn:Hk.
    + apply String.eqb_eq in Hk. subst k'.
      rewrite Values_Get_put_same, (Values_Get_absent hs k Hnin), app_nil_r.
      reflexivity.
    + apply String.eqb_neq in Hk.
      rewrite (Values_Get_put_other h (Values_Get h k' ++ v) Hk).
      reflexivity.
Qed.

Lemma fold_Add_same (k : string) (vs : list string) :
  forall m : Values,
    Values_Get (fold_left (fun ps v => Values_Add ps k v) vs m) k
      = Values_Get m k ++ vs.
Proof.
  induction vs as [|v vs IH]; intros m; cbn.
  - rewrite app_nil_r. reflexivity.
  - rewrite IH, Values_Get_Add_same, <- app_assoc. reflexivity.
Qed.

Lemma fold_Add_other (k k0 : string) (vs : list string) :
  k <> k0 ->
  forall m : Values,
    Values_Get (fold_left (fun ps v => Values_Add ps k v) vs m) k0
      = Values_Get m k0.
Proof.
  intros Hne. induction vs as [|v vs IH]; intros m; cbn.
  - reflexivity.
  - rewrite IH. apply Values_Get_Add_other. exact Hne.
Qed.

(** *** The two requests *)

Lemma oauthForm_scope (clientID : string) (to : TokenOptions) :
  Values_Get (oauthForm clientID to) "scope" =
    match Scopes to with
    | [] => []
    | _ :: _ => [strings_Join (Scopes to) " "]
    end.
Proof.
  unfold oauthForm.
  destruct (Scopes to) as [|s ss]; destruct (Username to =? "")%string;
    reflexivity.
Qed.

Lemma getParams_scope (base : Values) (to : TokenOptions) :
  Values_Get (getParams base to) "scope" = Values_Get base "scope" ++ Scopes to.
Proof.
  unfold getParams. rewrite fold_Add_same.
  destruct (negb (Service to =? "")%string); [|reflexivity].
  rewrite Values_Get_Add_other by discriminate. reflexivity.
Qed.

(** X5.  The form [FetchTokenWithOAuth] posts always names the service and
    the client; it has a scope only when there are scopes, all of them in
    one value joined by spaces; with an empty user name it asks for a
    refresh-token grant and carries the secret as the refresh token, with no
    user name or password; otherwise it asks for a password grant and
    carries the user name and the secret as the password, with no refresh
    token.  If the request cannot be made from it, that error is returned
    as it is, with an empty token. *)
Theorem X5_oauth_form_fields (clientID : string) (to : TokenOptions) :
  let form := oauthForm clientID to in
  Values_Get form "service" = [Service to] /\
  Values_Get form "client_id" = [clientID] /\
  Values_Get form "scope" =
    match Scopes to with
    | [] => []
    | _ :: _ => [strings_Join (Scopes to) " "]
    end /\
  (if (Username to =? "")%string then
     Values_Get form "grant_type" = ["refresh_token"] /\
     Values_Get form "refresh_token" = [Secret to] /\
     Values_Get form "username" = [] /\
     Values_Get form "password" = []
   else
     Values_Get form "grant_type" = ["password"] /\
     Values_Get form "username" = [Username to] /\
     Values_Get form "password" = [Secret to] /\
     Values_Get form "refresh_token" = []) /\
  (forall net headers err,
     http_NewRequest net "POST" (Realm to)
       (Some (Values_Encode net form)) = inr err ->
     FetchTokenWithOAuth net headers clientID to = Returns "" (Some err)) /\
  (forall net headers req0,
     http_NewRequest net "POST" (Realm to)
       (Some (Values_Encode net form)) = inl req0 ->
     exists req,
       oauthRequest net headers clientID to = inl req /\
       req_Method req = req_Method req0 /\ req_URL req = req_URL req0 /\
       req_Body req = req_Body req0).
Proof.
  cbv zeta. split; [|split; [|split; [|split; [|split]]]].
  - unfold oauthForm.
    destruct (0 <? List.length (Scopes to))%nat;
      destruct (Username to =? "")%string; reflexivity.
  - unfold oauthForm.
    destruct (0 <? List.length (Scopes to))%nat;
      destruct (Username to =? "")%string; reflexivity.
  - apply oauthForm_scope.
  - unfold oauthForm.
    destruct (0 <? List.length (Scopes to))%nat;
      destruct (Username to =? "")%string; repeat split; reflexivity.
  - intros net headers err Hreq.
    unfold FetchTokenWithOAuth, oauthRequest.
    unfold oauthForm in Hreq. cbv zeta in Hreq |- *.
    rewrite Hreq. reflexivity.
  - intros net headers req0 Hreq.
    unfold oauthRequest.
    unfold oauthForm in Hreq. cbv zeta in Hreq |- *.
    rewrite Hreq. eexists. split; [reflexivity|]. repeat split.
Qed.

Lemma getParams_service (base : Values) (to : TokenOptions) :
  Values_Get (getParams base to) "service" =
    Values_Get base "service"
    ++ (if (Service to =? "")%string then [] else [Service to]).
Proof.
  unfold getParams. rewrite fold_Add_other by discriminate.
  destruct (Service to =? "")%string; cbn [negb].
  - rewrite app_nil_r. reflexivity.
  - apply Values_Get_Add_same.
Qed.

Lemma getParams_other (base : Values) (to : TokenOptions) (k : string) :
  k <> "scope" -> k <> "service" ->
  Values_Get (getParams base to) k = Values_Get base k.
Proof.
  intros Hscope Hservice. unfold getParams.
  rewrite fold_Add_other by congruence.
  destruct (negb (Service to =? "")%string); [|reflexivity].
  apply Values_Get_Add_other. congruence.
Qed.

(** X6.  In the request of [FetchTokenWithOAuth] the caller's headers are
    appended to the request's own, key by key, after the content type has
    been set: whatever the caller passes, the first value of Content-Type is
    the form encoding, and the caller's values for it follow. *)
Theorem X6_oauth_headers_are_appended net (headers : option Values)
    clientID to req :
  let hs := match headers with Some hs => hs | None => [] end in
  NoDup (map fst hs) ->
  oauthRequest net headers clientID to = inl req ->
  exists req0,
    http_NewRequest net "POST" (Realm to)
      (Some (Values_Encode net (oauthForm clientID to))) = inl req0 /\
    Values_Get (req_Header req) "Content-Type" =
      "application/x-www-form-urlencoded; charset=utf-8"
      :: Values_Get hs "Content-Type" /\
    forall k, k <> "Content-Type" ->
      Values_Get (req_Header req) k
        = Values_Get (req_Header req0) k ++ Values_Get hs k.
Proof.
  cbv zeta. intros Hnd H. unfold oauthRequest in H.
  unfold oauthForm. cbv zeta in H |- *.
  destruct (http_NewRequest net "POST" (Realm to) _) as [req0|err];
    [|discriminate].
  inversion H; subst req. clear H. cbn [req_Header].
  exists req0. split; [reflexivity|].
  destruct headers as [hs|].
  - split.
    + rewrite Header_merge_Get by exact Hnd. unfold Values_Set.
      rewrite Values_Get_put_same. reflexivity.
    + intros k Hk. rewrite Header_merge_Get by exact Hnd. unfold Values_Set.
      rewrite Values_Get_put_other by congruence. reflexivity.
  - split.
    + unfold Values_Set. rewrite Values_Get_put_same. reflexivity.
    + intros k Hk. unfold Values_Set.
      rewrite Values_Get_put_other by congruence.
      cbn. rewrite app_nil_r. reflexivity.
Qed.

(** X7.  The request of [FetchToken] is the one [http.NewRequest] made for
    the realm, with three changes.  Its query is the realm's own with the
    service appended under "service" when it is not empty and every scope
    appended under "scope", one value each, in order; no other parameter
    changes.  The caller's headers are appended key by key.  And when the
    secret is not empty the Authorization header is replaced by the basic
    credentials, whatever the request or the caller had under it; with an
    empty secret it is left as the caller gave it. *)
Theorem X7_get_request_query_and_headers net (headers : option Values)
    to req :
  let hs := match headers with Some hs => hs | None => [] end in
  NoDup (map fst hs) ->
  getRequest net headers to = inl req ->
  exists req0,
    http_NewRequest net "GET" (Realm to) None = inl req0 /\
    req_Method req = req_Method req0 /\ req_URL req = req_URL req0 /\
    req_Body req = req_Body req0 /\
    req_RawQuery req = Values_Encode net (getParams (url_Query net req0) to) /\
    Values_Get (getParams (url_Query net req0) to) "scope"
      = Values_Get (url_Query net req0) "scope" ++ Scopes to /\
    Values_Get (getParams (url_Query net req0) to) "service"
      = Values_Get (url_Query net req0) "service"
        ++ (if (Service to =? "")%string then [] else [Service to]) /\
    (forall k, k <> "scope" -> k <> "service" ->
       Values_Get (getParams (url_Query net req0) to) k
         = Values_Get (url_Query net req0) k) /\
    (forall k, k <> "Authorization" \/ Secret to = "" ->
       Values_Get (req_Header req) k
         = Values_Get (req_Header req0) k ++ Values_Get hs k) /\
    (Secret to <> "" ->
       Values_Get (req_Header req) "Authorization"
         = [basicAuth net (Username to) (Secret to)]).
Proof.
  cbv zeta. intros Hnd H. unfold getRequest in H. cbv zeta in H.
  destruct (http_NewRequest net "GET" (Realm to) None) as [req0|err];
    [|discriminate].
  inversion H; subst req. clear H.
  cbn [req_Header req_Method req_URL req_Body req_RawQuery].
  exists req0.
  split; [reflexivity|]. split; [reflexivity|]. split; [reflexivity|].
  split; [reflexivity|]. split; [reflexivity|].
  split; [apply getParams_scope|]. split; [apply getParams_service|].
  split; [intros k; apply getParams_other|].
  assert (Hmerge : forall k,
            Values_Get
              match headers with
              | Some hs => Header_merge (req_Header req0) hs
              | None => req_Header req0
              end k
            = Values_Get (req_Header req0) k
              ++ Values_Get match headers with Some hs => hs | None => [] end k).
  { intros k. destruct headers as [hs|].
    - apply Header_merge_Get. exact Hnd.
    - cbn. rewrite app_nil_r. reflexivity. }
  split.
  - intros k Hk.
    destruct (Secret to =? "")%string eqn:Hs; cbn [negb].
    + apply Hmerge.
    + destruct Hk as [Hk|Hk].
      * unfold Values_Set. rewrite Values_Get_put_other by congruence.
        apply Hmerge.
      * apply String.eqb_neq in Hs. contradiction.
  - intros Hsecret. apply String.eqb_neq in Hsecret. rewrite Hsecret.
    cbn [negb]. unfold Values_Set. apply Values_Get_put_same.
Qed.

(** X8.  Whenever [FetchTokenWithOAuth] or [FetchToken] returns an error,
    the token it returns with it is the empty string. *)
Theorem X8_error_comes_with_empty_token net headers clientID to :
  (forall token e,
     FetchTokenWithOAuth net headers clientID to = Returns token (Some e) ->
     token = "") /\
  (forall token e,
     FetchToken net headers to = Returns token (Some e) -> token = "").
Proof.
  split; intros token e H.
  - unfold FetchTokenWithOAuth in H.
    destruct (oauthRequest net headers clientID to) as [req|err];
      [|inversion H; reflexivity].
    destruct (ctxhttp_Do net req) as [resp|err]; [|inversion H; reflexivity].
    destruct (resp_Body resp) as [body|]; [|discriminate].
    destruct (unexpected_status resp); [inversion H; reflexivity|].
    destruct (json_Decode_post net body) as [tr|err];
      [discriminate|inversion H; reflexivity].
  - unfold FetchToken in H.
    destruct (getRequest net headers to) as [req|err];
      [|inversion H; reflexivity].
    destruct (ctxhttp_Do net req) as [resp|err]; [|inversion H; reflexivity].
    destruct (resp_Body resp) as [body|]; [|discriminate].
    destruct (unexpected_status resp); [inversion H; reflexivity|].
    destruct (json_Decode_get net body) as [tr|err];
      [|inversion H; reflexivity].
    unfold tokenOf in H. cbv zeta in H.
    destruct ((if negb (AccessToken tr =? "")%string
               then AccessToken tr else Token tr) =? "")%string;
      [inversion H; reflexivity|discriminate].
Qed.

(** X9.  A nil error from [FetchToken] means that the request was built
    and answered with a status from 200 up to and not including 400, that
    the body was decoded, and that the token returned is not empty: it is
    the response's [access_token] when that is not empty, and its [token]
    otherwise. *)
Theorem X9_FetchToken_success net headers to token :
  FetchToken net headers to = Returns token None ->
  token <> "" /\
  exists req resp body tr,
    getRequest net headers to = inl req /\
    ctxhttp_Do net req = inl resp /\
    resp_Body resp = Some body /\
    (200 <= resp_StatusCode resp < 400)%Z /\
    json_Decode_get net body = inl tr /\
    token = if (AccessToken tr =? "")%string then Token tr else AccessToken tr.
Proof.
  unfold FetchToken. intros H.
  destruct (getRequest net headers to) as [req|err]; [|discriminate].
  destruct (ctxhttp_Do net req) as [resp|err] eqn:Hdo; [|discriminate].
  destruct (resp_Body resp) as [body|] eqn:Hbody; [|discriminate].
  destruct (unexpected_status resp) eqn:Hst; [discriminate|].
  destruct (json_Decode_get net body) as [tr|err] eqn:Hdec; [|discriminate].
  unfold tokenOf in H. cbv zeta in H.
  destruct ((if negb (AccessToken tr =? "")%string
             then AccessToken tr else Token tr) =? "")%string eqn:Hempty;
    [discriminate|].
  inversion H; subst token. clear H.
  split.
  - apply String.eqb_neq. exact Hempty.
  - exists req, resp, body, tr.
    split; [reflexivity|]. split; [exact Hdo|]. split; [exact Hbody|].
    split; [|split; [exact Hdec|]].
    + unfold unexpected_status in Hst.
      apply Bool.orb_false_iff in Hst. destruct Hst as [Hlo Hhi].
      apply Z.ltb_ge in Hlo.
      destruct (Z.geb_spec (resp_StatusCode resp) 400); [discriminate|lia].
    + destruct (AccessToken tr =? "")%string; reflexivity.
Qed.

(** X10.  The error made for an unexpected status keeps the body whole when
    it has at most 64000 bytes and its first 64000 bytes otherwise (none
    when the response has no body); its text names the status, and nothing
    of the body. *)
Theorem X10_unexpected_status_body (resp : Response) :
  Error (WithStack (newUnexpectedStatusErr resp))
    = ("unexpected status: " ++ resp_Status resp)%string /\
  exists b,
    newUnexpectedStatusErr resp
      = ErrUnexpectedStatus (resp_Status resp) (resp_StatusCode resp) b /\
    match resp_Body resp with
    | None => b = []
    | Some body =>
        b ++ skipn 64000 (body_bytes body) = body_bytes body /\
        List.length b = Nat.min 64000 (List.length (body_bytes body)) /\
        (List.length (body_bytes body) <= 64000 -> b = body_bytes body)
    end.
Proof.
  split; [reflexivity|].
  unfold newUnexpectedStatusErr, ReadAll_Limit.
  eexists. split; [reflexivity|].
  destruct (resp_Body resp) as [body|]; [|reflexivity].
  split; [apply firstn_skipn|]. split; [apply length_firstn|].
  intros Hle. apply firstn_all2. exact Hle.
Qed.

(** X14.  A nil error from [FetchTokenWithOAuth] means that the request
    was built and answered with a status from 200 up to and not including
    400 and that the body was decoded; the token returned is the response's
    [access_token] as it is, the empty string included: this function has no
    check for a missing token. *)
Theorem X14_FetchTokenWithOAuth_success net headers clientID to token :
  FetchTokenWithOAuth net headers clientID to = Returns token None ->
  exists req resp body tr,
    oauthRequest net headers clientID to = inl req /\
    ctxhttp_Do net req = inl resp /\
    resp_Body resp = Some body /\
    (200 <= resp_StatusCode resp < 400)%Z /\
    json_Decode_post net body = inl tr /\
    token = post_AccessToken tr.
Proof.
  unfold FetchTokenWithOAuth. intros H.
  destruct (oauthRequest net headers clientID to) as [req|err];
    [|discriminate].
  destruct (ctxhttp_Do net req) as [resp|err] eqn:Hdo; [|discriminate].
  destruct (resp_Body resp) as [body|] eqn:Hbody; [|discriminate].
  destruct (unexpected_status resp) eqn:Hst; [discriminate|].
  destruct (json_Decode_post net body) as [tr|err] eqn:Hdec; [|discriminate].
  inversion H; subst token. clear H.
  exists req, resp, body, tr.
  split; [reflexivity|]. split; [exact Hdo|]. split; [exact Hbody|].
  split; [|split; [exact Hdec|reflexivity]].
  unfold unexpected_status in Hst.
  apply Bool.orb_false_iff in Hst. destruct Hst as [Hlo Hhi].
  apply Z.ltb_ge in Hlo.
  destruct (Z.geb_spec (resp_StatusCode resp) 400); [discriminate|lia].
Qed.

End MoreAuthFacts.

Section ChallengeFacts.

Import Auth.

Context {URL : Type}.
Variable url_Parse : string -> URL + error.
Variable URL_String : URL -> string.

(** X11.  [GenerateTokenOptions] succeeds exactly when the challenge has a
    realm and the realm parses as a URL.  With no realm the error is "no
    realm specified for token auth challenge"; with a realm that does not
    parse it is the parser's error wrapped as "invalid token auth challenge
    realm"; either way the options returned are the zero value and nothing
    is logged.  On success the realm is the parsed URL written out, the
    service is the challenge's (empty when it has none), the user name and
    the secret are the caller's, and the scopes are the challenge's one
    scope, or none, in which case one debug record is written for the
    host. *)
Theorem X11_GenerateTokenOptions_outcomes host username secret c :
  let res := GenerateTokenOptions url_Parse URL_String host username secret c in
  let to := fst (fst res) in
  let err := snd (fst res) in
  let logs := snd res in
  (err = None <->
   exists realm u,
     Parameters_lookup (Parameters c) "realm" = Some realm /\
     url_Parse realm = inl u) /\
  (Parameters_lookup (Parameters c) "realm" = None ->
   err = Some (Plain (ErrNew "no realm specified for token auth challenge"))) /\
  (forall realm e,
     Parameters_lookup (Parameters c) "realm" = Some realm ->
     url_Parse realm = inr e ->
     err = Some (Wrap e "invalid token auth challenge realm")) /\
  (err <> None -> to = zeroTokenOptions /\ logs = []) /\
  (forall realm u,
     Parameters_lookup (Parameters c) "realm" = Some realm ->
     url_Parse realm = inl u ->
     Realm to = URL_String u /\
     Service to = Parameters_get (Parameters c) "service" /\
     Username to = username /\ Secret to = secret /\
     Scopes to =
       match Parameters_lookup (Parameters c) "scope" with
       | Some scope => [scope]
       | None => []
       end /\
     logs =
       match Parameters_lookup (Parameters c) "scope" with
       | Some _ => []
       | None =>
           [{| log_host := host;
               log_msg := "no scope specified for token auth challenge" |}]
       end).
Proof.
  cbv zeta. unfold GenerateTokenOptions.
  destruct (Parameters_lookup (Parameters c) "realm") as [realm|] eqn:Hrealm.
  - destruct (url_Parse realm) as [u|e] eqn:Hparse.
    + destruct (Parameters_lookup (Parameters c) "scope") as [scope|];
        cbn [fst snd].
      * split; [split; [intros _; exists realm, u; split; [reflexivity|exact Hparse]|reflexivity]|].
        split; [discriminate|].
        split; [intros realm0 e0 Hr He; inversion Hr; subst; congruence|].
        split; [intros Hne; contradiction Hne; reflexivity|].
        intros realm0 u0 Hr Hu. inversion Hr; subst realm0.
        rewrite Hparse in Hu. inversion Hu; subst u0.
        repeat split.
      * split; [split; [intros _; exists realm, u; split; [reflexivity|exact Hparse]|reflexivity]|].
        split; [discriminate|].
        split; [intros realm0 e0 Hr He; inversion Hr; subst; congruence|].
        split; [intros Hne; contradiction Hne; reflexivity|].
        intros realm0 u0 Hr Hu. inversion Hr; subst realm0.
        rewrite Hparse in Hu. inversion Hu; subst u0.
        repeat split.
    + cbn [fst snd].
      split; [split; [discriminate|]|].
      { intros (realm0 & u0 & Hr & Hu). inversion Hr; subst realm0.
        rewrite Hparse in Hu. discriminate. }
      split; [discriminate|].
      split; [intros realm0 e0 Hr He; inversion Hr; subst realm0;
              rewrite Hparse in He; inversion He; reflexivity|].
      split; [intros _; split; reflexivity|].
      intros realm0 u0 Hr Hu. inversion Hr; subst realm0.
      rewrite Hparse in Hu. discriminate.
  - cbn [fst snd].
    split; [split; [discriminate|]|].
    { intros (realm0 & u0 & Hr & Hu). discriminate. }
    split; [reflexivity|].
    split; [discriminate|].
    split; [intros _; split; reflexivity|].
    discriminate.
Qed.

(** X12.  What a challenge says reaches both token requests.  With the
    options [GenerateTokenOptions] made from it, the form of
    [FetchTokenWithOAuth] has the challenge's scope as its one scope value
    (no scope when the challenge has none) and the challenge's service, and
    carries the caller's secret as the refresh token when the user name is
    empty and as the password otherwise; the query of [FetchToken] has the
    challenge's scope appended to the realm's own scope values. *)
Theorem X12_challenge_reaches_the_requests host username secret c clientID
    (base : Values) to logs :
  GenerateTokenOptions url_Parse URL_String host username secret c
    = (to, None, logs) ->
  Values_Get (oauthForm clientID to) "scope" =
    match Parameters_lookup (Parameters c) "scope" with
    | Some scope => [scope]
    | None => []
    end /\
  Values_Get (oauthForm clientID to) "service"
    = [Parameters_get (Parameters c) "service"] /\
  Values_Get (oauthForm clientID to)
    (if (username =? "")%string then "refresh_token" else "password")
    = [secret] /\
  Values_Get (getParams base to) "scope" =
    Values_Get base "scope" ++
    match Parameters_lookup (Parameters c) "scope" with
    | Some scope => [scope]
    | None => []
    end.
Proof.
  unfold GenerateTokenOptions. intros H.
  destruct (Parameters_lookup (Parameters c) "realm") as [realm|];
    [|discriminate].
  destruct (url_Parse realm) as [u|e]; [|discriminate].
  rewrite getParams_scope, oauthForm_scope.
  destruct (Parameters_lookup (Parameters c) "scope") as [scope|];
    inversion H; subst to logs; clear H; cbn [Scopes app].
  - repeat split.
    + unfold oauthForm; cbn [Scopes Service Username Secret app List.length].
      destruct (username =? "")%string; reflexivity.
    + unfold oauthForm; cbn [Scopes Service Username Secret app List.length].
      destruct (username =? "")%string; reflexivity.
  - repeat split.
    + unfold oauthForm; cbn [Scopes Service Username Secret app List.length].
      destruct (username =? "")%string; reflexivity.
    + unfold oauthForm; cbn [Scopes Service Username Secret app List.length].
      destruct (username =? "")%string; reflexivity.
Qed.

End ChallengeFacts.

(** * The further statements on the concrete instance *)

Section MoreOnTheInstance.

(** X1 on the instance: the media type nothing is registered for. *)
Lemma X1_witness :
  exists d err w',
    Apply Demo.E 5 Demo.descUnknown [] [] Demo.w0 = Some (d, Some err, w') /\
    err = Wrap (ErrNew "no processor for content stream")
            "failed to get stream processor for text/plain".
Proof.
  do 3 eexists.
  match goal with
  | |- ?A /\ _ => assert (H : A) by (vm_compute; reflexivity)
  end.
  split; [exact H|].
  destruct (X1_error_tells_the_step Demo.E 5 Demo.descUnknown [] [] Demo.w0 H)
    as [_|[_|[_|_]]]; reflexivity.
Defined.

(** X2 on the instance: the stream fails on the extractor's first read. *)
Lemma X2_witness :
  callback DemoMore.E 5 "/tmp/m"
    (newReadCounter DemoMore.stageBroken newDigester) []
    = Some (Some (ErrNew "read failed"),
            newReadCounter DemoMore.stageBroken newDigester, []) /\
  exists e' w',
    Apply DemoMore.E 5 DemoMore.descLayer [] [] Demo.w0
      = Some (emptyDesc, Some e', w') /\
    fs w' = snd (mount_release DemoMore.E "/tmp/m" []).
Proof.
  apply (@X2_extraction_error_skips_the_drain _ _ _ _ DemoMore.E 5
           DemoMore.descLayer [] [] Demo.w0 zeroConfig DemoMore.brokenStream
           DemoMore.stageBroken DemoMore.wResolved "/tmp/m" [] 0%Z
           (ErrNew "read failed")
           (newReadCounter DemoMore.stageBroken newDigester) []).
  - reflexivity.
  - reflexivity.
  - vm_compute. reflexivity.
  - reflexivity.
  - vm_compute. reflexivity.
Defined.

(** X3 on the instance: the one [Close] of the reader in the run of
    [descGzip]. *)
Lemma X3_witness :
  exists d err w',
    Apply Demo.E 5 Demo.descGzip [] [] Demo.w0 = Some (d, err, w') /\
    exists evs,
      extends Demo.w0 w' evs /\
      filter is_ra_close evs = [EvReaderAtClose (Demo.blob, EOF) None].
Proof.
  do 3 eexists.
  match goal with
  | |- ?A /\ _ => assert (H : A) by (vm_compute; reflexivity)
  end.
  split; [exact H|].
  exact (X3_store_reader_closed_exactly_once Demo.E 5 Demo.descGzip [] []
           Demo.w0 H).
Defined.

(** X4 on the instance: twelve bytes read, hashed and counted. *)
Lemma X4_witness :
  callback Demo.E 5 "/tmp/m" (newReadCounter Demo.stage2 newDigester) []
    = Some (None, DemoMore.rcDrained, Demo.fsExtracted) /\
  stream_reads Demo.E (sp_stream Demo.stage2)
    (tee_w (r DemoMore.rcDrained)) (tee_r (r DemoMore.rcDrained)) /\
  c DemoMore.rcDrained
    = wrap64 (Z.of_nat (List.length (tee_w (r DemoMore.rcDrained)))).
Proof.
  assert (H : callback Demo.E 5 "/tmp/m"
                (newReadCounter Demo.stage2 newDigester) []
              = Some (None, DemoMore.rcDrained, Demo.fsExtracted))
    by (vm_compute; reflexivity).
  split; [exact H|].
  exact (X4_reader_consistent_on_every_outcome Demo.E 5 "/tmp/m" Demo.stage2
           [] H).
Defined.

(** X6 on the instance: the caller's Content-Type comes second. *)
Lemma X6_witness :
  exists req,
    Auth.oauthRequest AuthDemo.net (Some DemoMore.headers) "cid"
      (AuthDemo.toOf "https://auth.test/ok") = inl req /\
    Auth.Values_Get (Auth.req_Header req) "Content-Type"
      = ["application/x-www-form-urlencoded; charset=utf-8"; "text/plain"].
Proof.
  eexists.
  match goal with
  | |- ?A /\ _ => assert (H : A) by (vm_compute; reflexivity)
  end.
  split; [exact H|].
  assert (Hnd : NoDup (map fst DemoMore.headers)).
  { repeat constructor; cbn; intuition discriminate. }
  destruct (@X6_oauth_headers_are_appended AuthDemo.net
              (Some DemoMore.headers) "cid"
              (AuthDemo.toOf "https://auth.test/ok") _ Hnd H)
    as (req0 & _ & Hct & _).
  exact Hct.
Defined.

(** X7 on the instance: the caller's Authorization header is replaced. *)
Lemma X7_witness :
  exists req,
    Auth.getRequest AuthDemo.net (Some DemoMore.headers)
      (AuthDemo.toOf "https://auth.test/ok") = inl req /\
    Auth.Values_Get (Auth.req_Header req) "Authorization" = ["Basic :s3cr3t"].
Proof.
  eexists.
  match goal with
  | |- ?A /\ _ => assert (H : A) by (vm_compute; reflexivity)
  end.
  split; [exact H|].
  assert (Hnd : NoDup (map fst DemoMore.headers)).
  { repeat constructor; cbn; intuition discriminate. }
  destruct (@X7_get_request_query_and_headers AuthDemo.net
              (Some DemoMore.headers)
              (AuthDemo.toOf "https://auth.test/ok") _ Hnd H)
    as (req0 & _ & _ & _ & _ & _ & _ & _ & _ & _ & Hauth).
  apply Hauth. discriminate.
Defined.

(** X8 on the instance: the 401 answer. *)
Lemma X8_witness :
  exists token e,
    Auth.FetchToken AuthDemo.net None
      (AuthDemo.toOf "https://auth.test/denied")
      = Auth.Returns token (Some e) /\
    token = "".
Proof.
  do 2 eexists.
  match goal with
  | |- ?A /\ _ => assert (H : A) by (vm_compute; reflexivity)
  end.
  split; [exact H|].
  exact (proj2 (X8_error_comes_with_empty_token AuthDemo.net None "cid"
                  (AuthDemo.toOf "https://auth.test/denied")) _ _ H).
Defined.

(** X9 on the instance: the 302 answer. *)
Lemma X9_witness :
  Auth.FetchToken AuthDemo.net None (AuthDemo.toOf "https://auth.test/moved")
    = Auth.Returns "tok-302" None /\
  "tok-302" <> "".
Proof.
  assert (H : Auth.FetchToken AuthDemo.net None
                (AuthDemo.toOf "https://auth.test/moved")
              = Auth.Returns "tok-302" None) by (vm_compute; reflexivity).
  split; [exact H|].
  exact (proj1 (X9_FetchToken_success AuthDemo.net None
                  (AuthDemo.toOf "https://auth.test/moved") H)).
Defined.

(** X12 on the instance: a challenge with a scope and a service, no user
    name. *)
Lemma X12_witness :
  exists to logs,
    Auth.GenerateTokenOptions DemoMore.url_Parse (fun u => u)
      "registry.test" "" "s3cr3t" DemoMore.challenge = (to, None, logs) /\
    Auth.Values_Get (Auth.oauthForm "cid" to) "scope"
      = ["repository:a:pull"] /\
    Auth.Values_Get (Auth.oauthForm "cid" to) "service" = ["registry"] /\
    Auth.Values_Get (Auth.oauthForm "cid" to) "refresh_token" = ["s3cr3t"] /\
    Auth.Values_Get (Auth.getParams [("scope", ["a"])] to) "scope"
      = ["a"; "repository:a:pull"].
Proof.
  do 2 eexists.
  match goal with
  | |- ?A /\ _ => assert (H : A) by (vm_compute; reflexivity)
  end.
  split; [exact H|].
  exact (X12_challenge_reaches_the_requests DemoMore.url_Parse (fun u => u)
           "registry.test" "" "s3cr3t" DemoMore.challenge "cid"
           [("scope", ["a"])] H).
Defined.

(** X14 on the instance: the 302 answer to the posted form. *)
Lemma X14_witness :
  Auth.FetchTokenWithOAuth AuthDemo.net None "cid"
    (AuthDemo.toOf "https://auth.test/moved") = Auth.Returns "tok-302" None /\
  exists req resp body tr,
    Auth.oauthRequest AuthDemo.net None "cid"
      (AuthDemo.toOf "https://auth.test/moved") = inl req /\
    Auth.ctxhttp_Do AuthDemo.net req = inl resp /\
    Auth.resp_Body resp = Some body /\
    (200 <= Auth.resp_StatusCode resp < 400)%Z /\
    Auth.json_Decode_post AuthDemo.net body = inl tr /\
    "tok-302" = Auth.post_AccessToken tr.
Proof.
  assert (H : Auth.FetchTokenWithOAuth AuthDemo.net None "cid"
                (AuthDemo.toOf "https://auth.test/moved")
              = Auth.Returns "tok-302" None) by (vm_compute; reflexivity).
  split; [exact H|].
  exact (X14_FetchTokenWithOAuth_success AuthDemo.net None "cid"
           (AuthDemo.toOf "https://auth.test/moved") H).
Defined.

End MoreOnTheInstance.
